(** * Assembly of the 5-point Poisson system of [cli/multigrid/solver.cpp]

    A shallow embedding of [circularConditionsCheck], [insertCoefficient],
    [buildProblem] and of the reshaping loop of [main], followed by the
    properties of the assembled linear system.

    The program is embedded twice.  The ideal model, given first, computes
    on [int] in [Z] and takes [pow(x,2)] for the rounded product [x*x]; it
    carries the properties of the assembled system.  The machine model,
    module [Machine], computes the flattened index [i + j*ic(0,0)] and the
    size [ic(0,0)*ic(0,1)] in 32-bit [int] with wrap-around and leaves the
    [pow] of the C library open; it carries the properties of the
    classifier's test, of the index ranges and of the reshaping.  Lemma
    [machine_pass_exact] shows that the two are the same program where
    [nx*ny] fits in an [int] and [pow(x,2)] is [x*x].

    Conventions of the embedding.
    - C++ [int] is [Z].  Signed overflow is undefined behaviour in C++; the
      ideal model describes the executions without overflow, the machine
      model wraps the two products that a large grid overflows.
    - C++ [double] is Rocq's primitive [float] (IEEE 754 binary64, round to
      nearest even).  The [float] entries of [circles] and [bc_grid] are
      promoted to [double] wherever the source reads them; every binary32
      value is a binary64 value, so they are carried as [float] here.
    - [Eigen::VectorXd] is a [list float]; an access outside the vector
      (an assertion failure or undefined behaviour in Eigen) is [None].
    - [std::vector<T>::push_back] appends at the end of a list. *)

From Stdlib Require Import ZArith Lia Floats.
From stdpp Require Import base option list sorting.

Local Open Scope Z_scope.

(** ** Data *)

(** [Eigen::MatrixXi ic(3,2)], filled row by row by [fillMatricesFromFile]:
    [ic(0,0), ic(0,1), ic(1,0), ic(1,1), ic(2,0), ic(2,1)]. *)
Record IC := mkIC {
  x_grid_size : Z;   (* ic(0,0) *)
  y_grid_size : Z;   (* ic(0,1) *)
  x_min : Z;         (* ic(1,0) *)
  x_max : Z;         (* ic(1,1) *)
  y_min : Z;         (* ic(2,0) *)
  y_max : Z          (* ic(2,1) *)
}.

(** [Eigen::Vector4f bc_grid]: up, down, left and right, in this order. *)
Record BC := mkBC {
  bc_up : float;     (* bc_grid(0) *)
  bc_down : float;   (* bc_grid(1) *)
  bc_left : float;   (* bc_grid(2) *)
  bc_right : float   (* bc_grid(3) *)
}.

(** One row of [Eigen::MatrixXf circles]. *)
Record Circle := mkCircle {
  x_offset : float;  (* circles(k,0) *)
  y_offset : float;  (* circles(k,1) *)
  radius : float;    (* circles(k,2) *)
  voltage : float    (* circles(k,3) *)
}.

(** [Eigen::Triplet<double>]. *)
Record T := mkT { row : Z; col : Z; value : float }.

(** ** Arithmetic of the source *)

(** Conversion of an [int] to [double]; exact on every 32-bit [int]. *)
Definition Z2D (z : Z) : float :=
  match z with
  | Z0 => 0%float
  | Zpos _ => of_uint63 (Uint63.of_Z z)
  | Zneg p => (- of_uint63 (Uint63.of_Z (Zpos p)))%float
  end.

(** [pow(x,2)] in the ideal model: the correctly rounded product [x*x].  The
    C library does not promise this value; [Machine] leaves [pow] open. *)
Definition pow2 (x : float) : float := (x * x)%float.

(** [circles.size()]: rows times the four columns. *)
Definition circles_size (circles : list Circle) : Z :=
  Z.of_nat (length circles) * 4.

(** [circles(k,3)]. *)
Definition circle_voltage (circles : list Circle) (k : Z) : option float :=
  if decide (0 <= k) then voltage <$> circles !! Z.to_nat k else None.

(** [b(id)] and [b(id) = v]. *)
Definition b_get (b : list float) (id : Z) : option float :=
  if decide (0 <= id) then b !! Z.to_nat id else None.

Definition b_set (b : list float) (id : Z) (v : float) : option (list float) :=
  _ ← b_get b id; Some (<[Z.to_nat id := v]> b).

(** [b(id) -= v]. *)
Definition b_sub (b : list float) (id : Z) (v : float) : option (list float) :=
  old ← b_get b id; b_set b id (old - v)%float.

(** The flattened index [i + j*ic(0,0)] of grid point [(i,j)], as written in
    [insertCoefficient], [buildProblem] and the reshaping loop of [main], in
    the ideal model; [Machine.flat_id] is its value in [int]. *)
Definition flat_id (ic : IC) (i j : Z) : Z := i + j * x_grid_size ic.

(** A counting [for] loop: [n] iterations from index [k]. *)
Fixpoint for_loop {St : Type} (n : nat) (k : Z) (body : Z → St → option St) (s : St)
  : option St :=
  match n with
  | O => Some s
  | S n' => s' ← body k s; for_loop n' (k + 1) body s'
  end.

(** ** [circularConditionsCheck] *)

Definition dx (ic : IC) : float := (Z2D (x_max ic - x_min ic) / Z2D (x_grid_size ic))%float.
Definition dy (ic : IC) : float := (Z2D (y_max ic - y_min ic) / Z2D (y_grid_size ic))%float.

(** The test of the loop body for one row of [circles]. *)
Definition in_circle (i j : Z) (ic : IC) (c : Circle) : bool :=
  (pow2 ((Z2D (x_min ic) + Z2D i * dx ic) - x_offset c)
   + pow2 ((Z2D (y_min ic) + Z2D j * dy ic) - y_offset c)
   <=? pow2 (radius c))%float.

(** The loop over [current_circle], entered at row [current_circle] with the
    rows [rest] still to be visited. *)
Fixpoint circle_loop (i j : Z) (ic : IC) (rest : list Circle) (current_circle : Z)
  : bool * Z :=
  match rest with
  | [] => (false, 0)
  | c :: rest' =>
      if in_circle i j ic c then (true, current_circle)
      else circle_loop i j ic rest' (current_circle + 1)
  end.

Definition circularConditionsCheck (i j : Z) (circles : list Circle) (ic : IC)
  : bool * Z :=
  circle_loop i j ic circles 0.

(** ** [insertCoefficient] *)

Definition insertCoefficient (id i j : Z) (w : float)
    (coeffs : list T) (b : list float)
    (circles : list Circle) (ic : IC) (bc_grid : BC)
  : option (list T * list float) :=
  let id1 := flat_id ic i j in
  let isCircle :=
    if negb (circles_size circles =? 0) then circularConditionsCheck i j circles ic
    else (false, 0) in
  if i =? -1 then
    b' ← b_sub b id (w * bc_left bc_grid)%float; Some (coeffs, b')
  else if i =? x_grid_size ic then
    b' ← b_sub b id (w * bc_right bc_grid)%float; Some (coeffs, b')
  else if j =? -1 then
    b' ← b_sub b id (w * bc_up bc_grid)%float; Some (coeffs, b')
  else if j =? y_grid_size ic then
    b' ← b_sub b id (w * bc_down bc_grid)%float; Some (coeffs, b')
  else if isCircle.1 then
    v ← circle_voltage circles isCircle.2;
    b' ← b_sub b id (w * v)%float; Some (coeffs, b')
  else Some (coeffs ++ [mkT id id1 w], b).

(** ** [buildProblem] *)

(** The five calls that close the loop body: the four neighbours, then the
    point itself. *)
Definition stencil (id i j : Z) (coefficients : list T) (b : list float)
    (circles : list Circle) (ic : IC) (bc_grid : BC)
  : option (list T * list float) :=
  '(c1, b1) ← insertCoefficient id (i - 1) j (-1)%float coefficients b circles ic bc_grid;
  '(c2, b2) ← insertCoefficient id (i + 1) j (-1)%float c1 b1 circles ic bc_grid;
  '(c3, b3) ← insertCoefficient id i (j - 1) (-1)%float c2 b2 circles ic bc_grid;
  '(c4, b4) ← insertCoefficient id i (j + 1) (-1)%float c3 b3 circles ic bc_grid;
  insertCoefficient id i j 4%float c4 b4 circles ic bc_grid.

(** The body of the inner loop, at column [i] of row [j]; the pinned branch
    ends in [continue]. *)
Definition point_body (circles : list Circle) (ic : IC) (bc_grid : BC) (j i : Z)
    (s : list T * list float) : option (list T * list float) :=
  let '(coefficients, b) := s in
  let id := flat_id ic i j in
  if negb (circles_size circles =? 0) then
    let isCircle := circularConditionsCheck i j circles ic in
    if isCircle.1 then
      v ← circle_voltage circles isCircle.2;
      b' ← b_set b id v;
      Some (coefficients ++ [mkT id id 1%float], b')
    else stencil id i j coefficients b circles ic bc_grid
  else stencil id i j coefficients b circles ic bc_grid.

(** The body of the outer loop: the inner loop over [i] for row [j]. *)
Definition row_body (circles : list Circle) (ic : IC) (bc_grid : BC) (j : Z)
    (s : list T * list float) : option (list T * list float) :=
  for_loop (Z.to_nat (x_grid_size ic)) 0 (point_body circles ic bc_grid j) s.

(** [b.setZero()], then the two loops. *)
Definition buildProblem (coefficients : list T) (b : list float)
    (circles : list Circle) (ic : IC) (bc_grid : BC)
  : option (list T * list float) :=
  let b0 := replicate (length b) 0%float in
  for_loop (Z.to_nat (y_grid_size ic)) 0 (row_body circles ic bc_grid) (coefficients, b0).

(** ** The reshaping loop of [main] *)

(** [result(j,i) = x(i + j*x_grid_size)] for every [j] and [i]; the matrix
    [result] is the list of its rows. *)
Definition reshape_row {A : Type} (x : list A) (ic : IC) (j : Z) : option (list A) :=
  mapM (λ i, x !! Z.to_nat (flat_id ic i j)) (seqZ 0 (x_grid_size ic)).

Definition reshape {A : Type} (x : list A) (ic : IC) : option (list (list A)) :=
  mapM (reshape_row x ic) (seqZ 0 (y_grid_size ic)).


(** ** The classifier as the specification words it *)

(** The physical coordinates of grid point [(i,j)]. *)
Definition spacing_x (ic : IC) : float := (Z2D (x_max ic - x_min ic) / Z2D (x_grid_size ic))%float.
Definition spacing_y (ic : IC) : float := (Z2D (y_max ic - y_min ic) / Z2D (y_grid_size ic))%float.
Definition point_x (ic : IC) (i : Z) : float := (Z2D (x_min ic) + Z2D i * spacing_x ic)%float.
Definition point_y (ic : IC) (j : Z) : float := (Z2D (y_min ic) + Z2D j * spacing_y ic)%float.

(** [(x-x_k)^2 + (y-y_k)^2 <= radius_k^2]. *)
Definition inside (ic : IC) (i j : Z) (c : Circle) : Prop :=
  ((point_x ic i - x_offset c) * (point_x ic i - x_offset c)
   + (point_y ic j - y_offset c) * (point_y ic j - y_offset c)
   <=? radius c * radius c)%float = true.

Global Instance inside_dec ic i j c : Decision (inside ic i j c).
Proof. unfold inside. apply _. Defined.

(** The first inclusion, in list order, that contains the point. *)
Definition classify (ic : IC) (circles : list Circle) (i j : Z) : option (nat * Circle) :=
  list_find (inside ic i j) circles.

(** ** The contribution of one grid point

    [insertCoefficient] either folds a known voltage into the right-hand side
    or appends one triplet.  The definitions below name the two effects, so
    that the loops of [buildProblem] can be described point by point. *)

(** The voltage that a reference to [(i,j)] folds into the right-hand side:
    the branches of [insertCoefficient] in their order; [None] when the
    reference is an unknown. *)
Definition folded (circles : list Circle) (ic : IC) (bc_grid : BC) (i j : Z)
  : option float :=
  if i =? -1 then Some (bc_left bc_grid)
  else if i =? x_grid_size ic then Some (bc_right bc_grid)
  else if j =? -1 then Some (bc_up bc_grid)
  else if j =? y_grid_size ic then Some (bc_down bc_grid)
  else (voltage ∘ snd) <$> classify ic circles i j.

(** The triplets one call of [insertCoefficient] appends. *)
Definition emitted (circles : list Circle) (ic : IC) (bc_grid : BC)
    (id i j : Z) (w : float) : list T :=
  match folded circles ic bc_grid i j with
  | Some _ => []
  | None => [mkT id (flat_id ic i j) w]
  end.

(** What one call of [insertCoefficient] does to [b(id)]. *)
Definition fold_step (circles : list Circle) (ic : IC) (bc_grid : BC)
    (i j : Z) (w : float) (old : float) : float :=
  match folded circles ic bc_grid i j with
  | Some v => (old - w * v)%float
  | None => old
  end.

(** The triplets one iteration of the inner loop appends. *)
Definition point_coeffs (circles : list Circle) (ic : IC) (bc_grid : BC)
    (i j : Z) : list T :=
  let id := flat_id ic i j in
  match classify ic circles i j with
  | Some _ => [mkT id id 1%float]
  | None =>
      emitted circles ic bc_grid id (i - 1) j (-1)%float
      ++ emitted circles ic bc_grid id (i + 1) j (-1)%float
      ++ emitted circles ic bc_grid id i (j - 1) (-1)%float
      ++ emitted circles ic bc_grid id i (j + 1) (-1)%float
      ++ emitted circles ic bc_grid id i j 4%float
  end.

(** What one iteration of the inner loop does to [b(id)]. *)
Definition point_update (circles : list Circle) (ic : IC) (bc_grid : BC)
    (i j : Z) (old : float) : float :=
  match classify ic circles i j with
  | Some (_, c) => voltage c
  | None =>
      fold_step circles ic bc_grid i j 4%float
        (fold_step circles ic bc_grid i (j + 1) (-1)%float
          (fold_step circles ic bc_grid i (j - 1) (-1)%float
            (fold_step circles ic bc_grid (i + 1) j (-1)%float
              (fold_step circles ic bc_grid (i - 1) j (-1)%float old))))
  end.

(** The grid points in the order of the two loops: [j] outer, [i] inner. *)
Definition points (ic : IC) : list (Z * Z) :=
  seqZ 0 (y_grid_size ic) ≫= λ j, (λ i, (i, j)) <$> seqZ 0 (x_grid_size ic).

(** The triplets of a whole pass, and the right-hand side it leaves in a
    vector of [n] zeros. *)
Definition all_coeffs (circles : list Circle) (ic : IC) (bc_grid : BC) : list T :=
  points ic ≫= λ p, point_coeffs circles ic bc_grid p.1 p.2.

Definition rhs_vec (circles : list Circle) (ic : IC) (bc_grid : BC) (n : nat)
  : list float :=
  foldl (λ b p, alter (point_update circles ic bc_grid p.1 p.2)
                      (Z.to_nat (flat_id ic p.1 p.2)) b)
        (replicate n 0%float) (points ic).

(** The entries of one row of the matrix, in the order of emission. *)
Definition row_entries (id : Z) (coeffs : list T) : list T :=
  filter (λ t, row t = id) coeffs.

(** [(ni,nj)] is one of the four stencil neighbours of [(i,j)]. *)
Definition adjacent (i j ni nj : Z) : Prop :=
  (ni = i - 1 ∧ nj = j) ∨ (ni = i + 1 ∧ nj = j)
  ∨ (ni = i ∧ nj = j - 1) ∨ (ni = i ∧ nj = j + 1).

(** The sum of the absolute values of a list of entries, and weak diagonal
    dominance of the row [id] made of [entries]. *)
Definition abs_sum (ts : list T) : float :=
  foldl (λ acc t, (acc + abs (value t))%float) 0%float ts.

Definition diagonally_dominant (id : Z) (entries : list T) : Prop :=
  (abs_sum (filter (λ t, col t ≠ id) entries)
   <=? abs_sum (filter (λ t, col t = id) entries))%float = true.

(** Two doubles denote the same number: they are the same value, or they are
    the two zeros [+0] and [-0], which [==] identifies. *)
Definition same_double (x y : float) : Prop :=
  x = y ∨ (x = 0%float ∧ y = (-0)%float) ∨ (x = (-0)%float ∧ y = 0%float).

(** ** Notions used by the further properties *)

(** The voltages that the four neighbour references of [(i,j)] fold into the
    right-hand side, in the order of the calls: west, east, north, south. *)
Definition known_neighbours (circles : list Circle) (ic : IC) (bc_grid : BC)
    (i j : Z) : list float :=
  omap (λ p, folded circles ic bc_grid p.1 p.2)
       [(i - 1, j); (i + 1, j); (i, j - 1); (i, j + 1)].

(** An inclusion with the sign of its radius flipped. *)
Definition flip_radius (c : Circle) : Circle :=
  mkCircle (x_offset c) (y_offset c) (- radius c)%float (voltage c).

(** ** The machine model

    The definitions above are the ideal model: the flattened index and the
    size of the system are computed in [Z], and [pow(x,2)] is the correctly
    rounded square.  The module below gives the same functions as the machine
    runs them: [i + j*ic(0,0)] and [ic(0,0)*ic(0,1)] are computed in 32-bit
    [int], and the [pow] of libm is a parameter, of which nothing is assumed.
    The index expressions [i-1], [i+1], [j-1], [j+1] and the loop counters
    stay within [-1] and the grid sizes and cannot overflow; the differences
    [ic(1,1)-ic(1,0)] and [ic(2,1)-ic(2,0)] of the extents are taken in [Z]
    in both models, which is their value in [int] for extents less than
    [2^31] apart.  The two models agree when [nx*ny] fits in [int] and [pow]
    squares exactly. *)

Module Machine.

Definition int_min : Z := - 2 ^ 31.
Definition int_max : Z := 2 ^ 31 - 1.

(** The value a 32-bit two's complement [int] holds after an operation whose
    exact result is [z]. *)
Definition wrap (z : Z) : Z := (z + 2 ^ 31) mod 2 ^ 32 - 2 ^ 31.

Definition int_add (a b : Z) : Z := wrap (a + b).
Definition int_mul (a b : Z) : Z := wrap (a * b).

(** [i + j*ic(0,0)] as the [int] expression of lines 86, 196 and 233. *)
Definition flat_id (ic : IC) (i j : Z) : Z := int_add i (int_mul j (x_grid_size ic)).

(** [ic(0,0)*ic(0,1)], the size [main] gives to [b] and to the matrix. *)
Definition system_size (ic : IC) : Z := int_mul (x_grid_size ic) (y_grid_size ic).

(** [x(id)] on a vector: an index outside the vector is [None]. *)
Definition vec_get {A : Type} (x : list A) (id : Z) : option A :=
  if decide (0 <= id) then x !! Z.to_nat id else None.

Section Libm.
Context (pow : float → float → float).

(** The test of the loop body of [circularConditionsCheck]. *)
Definition in_circle (i j : Z) (ic : IC) (c : Circle) : bool :=
  (pow ((Z2D (x_min ic) + Z2D i * dx ic) - x_offset c) 2
   + pow ((Z2D (y_min ic) + Z2D j * dy ic) - y_offset c) 2
   <=? pow (radius c) 2)%float.

Fixpoint circle_loop (i j : Z) (ic : IC) (rest : list Circle) (current_circle : Z)
  : bool * Z :=
  match rest with
  | [] => (false, 0)
  | c :: rest' =>
      if in_circle i j ic c then (true, current_circle)
      else circle_loop i j ic rest' (current_circle + 1)
  end.

Definition circularConditionsCheck (i j : Z) (circles : list Circle) (ic : IC)
  : bool * Z :=
  circle_loop i j ic circles 0.

Definition insertCoefficient (id i j : Z) (w : float)
    (coeffs : list T) (b : list float)
    (circles : list Circle) (ic : IC) (bc_grid : BC)
  : option (list T * list float) :=
  let id1 := flat_id ic i j in
  let isCircle :=
    if negb (circles_size circles =? 0) then circularConditionsCheck i j circles ic
    else (false, 0) in
  if i =? -1 then
    b' ← b_sub b id (w * bc_left bc_grid)%float; Some (coeffs, b')
  else if i =? x_grid_size ic then
    b' ← b_sub b id (w * bc_right bc_grid)%float; Some (coeffs, b')
  else if j =? -1 then
    b' ← b_sub b id (w * bc_up bc_grid)%float; Some (coeffs, b')
  else if j =? y_grid_size ic then
    b' ← b_sub b id (w * bc_down bc_grid)%float; Some (coeffs, b')
  else if isCircle.1 then
    v ← circle_voltage circles isCircle.2;
    b' ← b_sub b id (w * v)%float; Some (coeffs, b')
  else Some (coeffs ++ [mkT id id1 w], b).

Definition stencil (id i j : Z) (coefficients : list T) (b : list float)
    (circles : list Circle) (ic : IC) (bc_grid : BC)
  : option (list T * list float) :=
  '(c1, b1) ← insertCoefficient id (i - 1) j (-1)%float coefficients b circles ic bc_grid;
  '(c2, b2) ← insertCoefficient id (i + 1) j (-1)%float c1 b1 circles ic bc_grid;
  '(c3, b3) ← insertCoefficient id i (j - 1) (-1)%float c2 b2 circles ic bc_grid;
  '(c4, b4) ← insertCoefficient id i (j + 1) (-1)%float c3 b3 circles ic bc_grid;
  insertCoefficient id i j 4%float c4 b4 circles ic bc_grid.

Definition point_body (circles : list Circle) (ic : IC) (bc_grid : BC) (j i : Z)
    (s : list T * list float) : option (list T * list float) :=
  let '(coefficients, b) := s in
  let id := flat_id ic i j in
  if negb (circles_size circles =? 0) then
    let isCircle := circularConditionsCheck i j circles ic in
    if isCircle.1 then
      v ← circle_voltage circles isCircle.2;
      b' ← b_set b id v;
      Some (coefficients ++ [mkT id id 1%float], b')
    else stencil id i j coefficients b circles ic bc_grid
  else stencil id i j coefficients b circles ic bc_grid.

Definition row_body (circles : list Circle) (ic : IC) (bc_grid : BC) (j : Z)
    (s : list T * list float) : option (list T * list float) :=
  for_loop (Z.to_nat (x_grid_size ic)) 0 (point_body circles ic bc_grid j) s.

Definition buildProblem (coefficients : list T) (b : list float)
    (circles : list Circle) (ic : IC) (bc_grid : BC)
  : option (list T * list float) :=
  let b0 := replicate (length b) 0%float in
  for_loop (Z.to_nat (y_grid_size ic)) 0 (row_body circles ic bc_grid) (coefficients, b0).

(** The classifier as the specification words it, its squares taken by
    [pow]: the point [(x,y)] with [x = xmin + i*dx], [y = ymin + j*dy], the
    test [(x-x_k)^2 + (y-y_k)^2 <= radius_k^2], the first inclusion in list
    order that passes it. *)
Definition inside (ic : IC) (i j : Z) (c : Circle) : Prop :=
  (pow (point_x ic i - x_offset c) 2 + pow (point_y ic j - y_offset c) 2
   <=? pow (radius c) 2)%float = true.

Global Instance inside_dec ic i j c : Decision (inside ic i j c).
Proof. unfold inside. apply _. Defined.

Definition classify (ic : IC) (circles : list Circle) (i j : Z)
  : option (nat * Circle) :=
  list_find (inside ic i j) circles.

End Libm.

(** The reshaping loop of [main], its index computed in [int]. *)
Definition reshape_row {A : Type} (x : list A) (ic : IC) (j : Z) : option (list A) :=
  mapM (λ i, vec_get x (flat_id ic i j)) (seqZ 0 (x_grid_size ic)).

Definition reshape {A : Type} (x : list A) (ic : IC) : option (list (list A)) :=
  mapM (reshape_row x ic) (seqZ 0 (y_grid_size ic)).

End Machine.

(** The references [buildProblem] hands to [insertCoefficient]: a grid point
    or a point one step outside an edge of the grid. *)
Definition reachable (ic : IC) (i j : Z) : Prop :=
  (0 ≤ i < x_grid_size ic ∧ 0 ≤ j < y_grid_size ic)
  ∨ i = -1 ∨ i = x_grid_size ic ∨ j = -1 ∨ j = y_grid_size ic.

(** A triplet of a system of dimension [nx*ny]. *)
Definition in_system (ic : IC) (t : T) : Prop :=
  0 ≤ row t < x_grid_size ic * y_grid_size ic
  ∧ 0 ≤ col t < x_grid_size ic * y_grid_size ic.

(** What the pass keeps: the size of [b] and triplets of the system. *)
Definition pass_inv (ic : IC) (n : nat) (s : list T * list float) : Prop :=
  length s.2 = n ∧ Forall (in_system ic) s.1.

(** A [pow] that squares exactly, to run the machine model on examples. *)
Definition pow_exact (x y : float) : float := (x * x)%float.

(** * Properties *)

(** ** Worked examples *)

(** A 2x2 grid on the unit square, grounded box, no inclusion: the discrete
    Laplacian with a zero right-hand side. *)
Example laplacian_2x2 :
  buildProblem [] [7; 7; 7; 7]%float [] (mkIC 2 2 0 1 0 1) (mkBC 0 0 0 0)
  = Some ([mkT 0 1 (-1); mkT 0 2 (-1); mkT 0 0 4;
           mkT 1 0 (-1); mkT 1 3 (-1); mkT 1 1 4;
           mkT 2 3 (-1); mkT 2 0 (-1); mkT 2 2 4;
           mkT 3 2 (-1); mkT 3 1 (-1); mkT 3 3 4]%float,
          [0; 0; 0; 0]%float).
Proof. reflexivity. Qed.

(** A 3x3 grid with one inclusion of voltage 5 that covers the centre cell
    only: the centre row is pinned and its four neighbours fold the voltage
    into their right-hand side. *)
Example pinned_centre_3x3 :
  buildProblem [] [7; 7; 7; 7; 7; 7; 7; 7; 7]%float
    [mkCircle 1 1 0.5 5] (mkIC 3 3 0 3 0 3) (mkBC 0 0 0 0)
  = Some ([mkT 0 1 (-1); mkT 0 3 (-1); mkT 0 0 4;
           mkT 1 0 (-1); mkT 1 2 (-1); mkT 1 1 4;
           mkT 2 1 (-1); mkT 2 5 (-1); mkT 2 2 4;
           mkT 3 0 (-1); mkT 3 6 (-1); mkT 3 3 4;
           mkT 4 4 1;
           mkT 5 2 (-1); mkT 5 8 (-1); mkT 5 5 4;
           mkT 6 7 (-1); mkT 6 3 (-1); mkT 6 6 4;
           mkT 7 6 (-1); mkT 7 8 (-1); mkT 7 7 4;
           mkT 8 7 (-1); mkT 8 5 (-1); mkT 8 8 4]%float,
          [0; 5; 0; 5; 5; 5; 0; 5; 0]%float).
Proof. reflexivity. Qed.

(** Overlapping inclusions: the first one in list order wins. *)
Example first_match_wins :
  circularConditionsCheck 1 1
    [mkCircle 0 0 0.5 1; mkCircle 1 1 1 2; mkCircle 1 1 2 3]%float
    (mkIC 3 3 0 3 0 3) = (true, 1).
Proof. reflexivity. Qed.

(** A point on the circle itself is inside. *)
Example boundary_is_inside :
  circularConditionsCheck 1 0 [mkCircle 0 0 1 1] (mkIC 3 3 0 3 0 3) = (true, 0).
Proof. reflexivity. Qed.

(** A vector that is too short makes the pass fail at the first access
    beyond its end. *)
Example short_vector_fails :
  buildProblem [] [7; 7; 7]%float [] (mkIC 2 2 0 1 0 1) (mkBC 0 0 0 0) = None.
Proof. reflexivity. Qed.

Example reshape_2x3 :
  reshape [1; 2; 3; 4; 5; 6]%float (mkIC 3 2 0 1 0 1)
  = Some [[1; 2; 3]; [4; 5; 6]]%float.
Proof. reflexivity. Qed.

(** On the last row of a 65536 x 65536 grid the product [j*ic(0,0)] leaves
    the range of [int]: the machine index wraps, the ideal one does not. *)
Example index_wraps :
  Machine.flat_id (mkIC 65536 65536 0 1 0 1) 0 65535 = -65536
  ∧ flat_id (mkIC 65536 65536 0 1 0 1) 0 65535 = 4294901760
  ∧ Machine.system_size (mkIC 65536 65536 0 1 0 1) = 0.
Proof. done. Qed.

(** On a small grid the machine pass, run with exact squares, gives the
    system of [pinned_centre_3x3]. *)
Example machine_pinned_centre_3x3 :
  Machine.buildProblem pow_exact [] [7; 7; 7; 7; 7; 7; 7; 7; 7]%float
    [mkCircle 1 1 0.5 5] (mkIC 3 3 0 3 0 3) (mkBC 0 0 0 0)
  = buildProblem [] [7; 7; 7; 7; 7; 7; 7; 7; 7]%float
      [mkCircle 1 1 0.5 5] (mkIC 3 3 0 3 0 3) (mkBC 0 0 0 0).
Proof. reflexivity. Qed.

(** ** The classifier *)

Lemma in_circle_inside ic i j c : in_circle i j ic c = true ↔ inside ic i j c.
Proof. reflexivity. Qed.

Lemma circle_loop_find ic i j rest k :
  circle_loop i j ic rest k =
    match list_find (inside ic i j) rest with
    | Some (n, _) => (true, k + Z.of_nat n)
    | None => (false, 0)
    end.
Proof.
  revert k. induction rest as [|c rest IH]; intros k; [done|].
  cbn [circle_loop list_find]. case_decide as Hc.
  - apply in_circle_inside in Hc. rewrite Hc. f_equal. lia.
  - destruct (in_circle i j ic c) eqn:E; [by apply in_circle_inside in E|].
    rewrite IH. destruct (list_find _ rest) as [[n c']|]; [|done].
    cbn. f_equal. lia.
Qed.

Lemma circularConditionsCheck_classify ic circles i j :
  circularConditionsCheck i j circles ic =
    match classify ic circles i j with
    | Some (k, _) => (true, Z.of_nat k)
    | None => (false, 0)
    end.
Proof. unfold circularConditionsCheck, classify. by rewrite circle_loop_find. Qed.

(** ** Binary64 arithmetic *)

Lemma SFsub_opp_r x y :
  SFsub prec emax x (SFopp y) = SFadd prec emax x y.
Proof.
  destruct x as [sx|sx| |sx mx ex], y as [sy|sy| |sy my ey]; cbn;
    try done; try (by destruct sx); try (by destruct sy); try (by destruct sx, sy).
Qed.

Lemma binary_round_aux_opp s m e l :
  SFopp (binary_round_aux prec emax s m e l) = binary_round_aux prec emax (negb s) m e l.
Proof.
  unfold binary_round_aux.
  destruct (shr_fexp prec emax m e l) as [mrs' e'].
  destruct (shr_fexp prec emax _ e' loc_Exact) as [mrs'' e''].
  destruct (shr_m mrs''); [done| |done]. by destruct (_ <=? _).
Qed.

Lemma SFmul_opp_l x y :
  SFmul prec emax (SFopp x) y = SFopp (SFmul prec emax x y).
Proof.
  destruct x as [sx|sx| |sx mx ex], y as [sy|sy| |sy my ey]; cbn;
    try done; try (by destruct sx, sy).
  rewrite binary_round_aux_opp. by destruct sx, sy.
Qed.

Lemma bounded_fexp m e :
  bounded prec emax m e = true →
  fexp prec emax (Z.pos (digits2_pos m) + e) = e ∧ e ≤ emax - prec.
Proof.
  unfold bounded, canonical_mantissa.
  intros [H1 H2]%andb_prop. apply Z.eqb_eq in H1. apply Z.leb_le in H2. done.
Qed.

(** Scaling a representable mantissa by [2^52] and the exponent by [-52]
    rounds back to the very same number. *)
Lemma binary_round_aux_unit s m e :
  bounded prec emax m e = true →
  binary_round_aux prec emax s (Z.pos (4503599627370496 * m)) (-52 + e) loc_Exact
  = S754_finite s m e.
Proof.
  intros Hb. destruct (bounded_fexp m e Hb) as [Hf He].
  unfold binary_round_aux, shr_fexp.
  rewrite (Pos.mul_comm _ m), !Pos.mul_xO_r, Pos.mul_1_r.
  match goal with |- context [Zdigits2 (Z.pos ?p)] =>
    assert (Zdigits2 (Z.pos p) = Z.pos (digits2_pos m) + 52) as ->
  end.
  { cbn [Zdigits2 digits2_pos]. lia. }
  replace (Z.pos (digits2_pos m) + 52 + (-52 + e)) with (Z.pos (digits2_pos m) + e) by lia.
  rewrite Hf. replace (e - (-52 + e)) with 52 by lia.
  cbn [shr shr_record_of_loc SpecFloat.iter_pos shr_1 orb].
  cbn [shr_m loc_of_shr_record round_nearest_even Zdigits2].
  replace (-52 + e + 52) with e by lia.
  rewrite Hf, Z.sub_diag. cbn [shr shr_m].
  apply Z.leb_le in He. by rewrite He.
Qed.

Lemma mul_neg_one x : (-1 * x)%float = (- x)%float.
Proof.
  apply Prim2SF_inj. rewrite mul_spec, opp_spec.
  change (Prim2SF (-1)%float) with (S754_finite true 4503599627370496 (-52)).
  pose proof (Prim2SF_valid x) as Hv.
  destruct (Prim2SF x) as [s|s| |s m e]; try done.
  cbn [SF64mul SFmul SFopp xorb]. unfold SF64mul. cbn [SFmul].
  by rewrite binary_round_aux_unit.
Qed.

Lemma sub_opp_r a x : (a - (- x))%float = (a + x)%float.
Proof.
  apply Prim2SF_inj. rewrite sub_spec, opp_spec, add_spec. apply SFsub_opp_r.
Qed.

Lemma sub_add_opp a x : (a - x)%float = (a + (- x))%float.
Proof.
  apply Prim2SF_inj. rewrite sub_spec, add_spec, opp_spec.
  unfold SF64sub, SF64add. rewrite <- SFsub_opp_r.
  by destruct (Prim2SF x) as [[]|[]| |[] ? ?].
Qed.

Lemma mul_opp_l w v : ((- w) * v)%float = (- (w * v))%float.
Proof.
  apply Prim2SF_inj. rewrite mul_spec, !opp_spec, mul_spec. apply SFmul_opp_l.
Qed.

(** [b -= w*v] adds [-w] times [v]. *)
Lemma sub_mul_add a w v : (a - w * v)%float = (a + (- w) * v)%float.
Proof. by rewrite sub_add_opp, mul_opp_l. Qed.

Lemma add_zero_l x : (0 + x)%float = x ∨ x = (-0)%float.
Proof.
  destruct (Prim2SF x) as [[]|s| |s m e] eqn:E.
  1: { right. by apply Prim2SF_inj. }
  all: left; apply Prim2SF_inj; rewrite add_spec, E; done.
Qed.

Lemma add_neg_zero_l x : (-0 + x)%float = x.
Proof.
  apply Prim2SF_inj. rewrite add_spec.
  change (Prim2SF (-0)%float) with (S754_zero true).
  by destruct (Prim2SF x) as [[]|s| |s m e].
Qed.

Lemma same_double_eqb x y :
  same_double x y → x = y ∨ (x =? y)%float = true.
Proof. intros [->|[[-> ->]|[-> ->]]]; auto. Qed.

(** Subtracting [-1] times a voltage four times adds the four voltages. *)
Lemma fold_four l r u d :
  (0 - -1 * l - -1 * r - -1 * u - -1 * d)%float = (0 + l + r + u + d)%float.
Proof. by rewrite !mul_neg_one, !sub_opp_r. Qed.

(** Accumulating four voltages from a zeroed slot gives their sum. *)
Lemma sum_from_zero l r u d :
  same_double (0 + l + r + u + d)%float (l + r + u + d)%float.
Proof.
  destruct (add_zero_l l) as [->| ->]; [by left|].
  change (0 + -0)%float with 0%float. rewrite add_neg_zero_l.
  destruct (add_zero_l r) as [->| ->]; [by left|].
  change (0 + -0)%float with 0%float. rewrite add_neg_zero_l.
  destruct (add_zero_l u) as [->| ->]; [by left|].
  change (0 + -0)%float with 0%float. rewrite add_neg_zero_l.
  destruct (add_zero_l d) as [->| ->]; [by left|].
  right; left. done.
Qed.

(** ** Vector accesses *)

Lemma b_get_Some (b : list float) id :
  0 ≤ id → (Z.to_nat id < length b)%nat → ∃ v, b_get b id = Some v ∧ b !! Z.to_nat id = Some v.
Proof.
  intros H0 Hlt. unfold b_get. rewrite decide_True by done.
  destruct (lookup_lt_is_Some_2 b _ Hlt) as [v Hv]. eauto.
Qed.

Lemma b_set_alter (b : list float) id v :
  0 ≤ id → (Z.to_nat id < length b)%nat →
  b_set b id v = Some (alter (λ _, v) (Z.to_nat id) b).
Proof.
  intros H0 Hlt. destruct (b_get_Some b id H0 Hlt) as (old & Hg & _).
  unfold b_set. rewrite Hg. cbn. by rewrite list_insert_alter.
Qed.

Lemma b_sub_alter (b : list float) id v :
  0 ≤ id → (Z.to_nat id < length b)%nat →
  b_sub b id v = Some (alter (λ old, (old - v)%float) (Z.to_nat id) b).
Proof.
  intros H0 Hlt. destruct (b_get_Some b id H0 Hlt) as (old & Hg & Hl).
  unfold b_sub. rewrite Hg. cbn. rewrite b_set_alter by done.
  f_equal. apply list_alter_ext; [|done]. intros x Hx. congruence.
Qed.

Lemma b_sub_insert (b : list float) id old v :
  0 ≤ id → b !! Z.to_nat id = Some old →
  b_sub b id v = Some (<[Z.to_nat id := (old - v)%float]> b).
Proof.
  intros H0 Hl. unfold b_sub, b_set, b_get.
  rewrite decide_True by done. by rewrite Hl.
Qed.

(** ** One call, one point, one pass *)

Section Assembly.
Context (circles : list Circle) (ic : IC) (bc_grid : BC).

Lemma circles_size_nil : circles_size circles = 0 → circles = [].
Proof. unfold circles_size. destruct circles; [done|]. cbn. lia. Qed.

(** The guarded call of the classifier, as both [insertCoefficient] and
    [buildProblem] write it. *)
Lemma guarded_check i j :
  (if negb (circles_size circles =? 0) then circularConditionsCheck i j circles ic
   else (false, 0)) = circularConditionsCheck i j circles ic.
Proof.
  destruct (circles_size circles =? 0) eqn:E; [|done].
  apply Z.eqb_eq, circles_size_nil in E. by rewrite E.
Qed.

Lemma classify_voltage i j k c :
  classify ic circles i j = Some (k, c) →
  circle_voltage circles (Z.of_nat k) = Some (voltage c).
Proof.
  intros (Hk & _)%list_find_Some. unfold circle_voltage.
  rewrite decide_True by lia. by rewrite Nat2Z.id, Hk.
Qed.

Lemma insertCoefficient_spec id i j w coeffs (b : list float) :
  0 ≤ id → (Z.to_nat id < length b)%nat →
  insertCoefficient id i j w coeffs b circles ic bc_grid =
    Some (coeffs ++ emitted circles ic bc_grid id i j w,
          alter (fold_step circles ic bc_grid i j w) (Z.to_nat id) b).
Proof.
  intros H0 Hlt. unfold insertCoefficient, emitted, fold_step, folded.
  rewrite guarded_check, circularConditionsCheck_classify.
  repeat (case_match; [rewrite b_sub_alter by done; cbn; by rewrite app_nil_r|]).
  destruct (classify ic circles i j) as [[k c]|] eqn:Hc; cbn.
  - rewrite (classify_voltage _ _ _ _ Hc); cbn.
    rewrite b_sub_alter by done; cbn. by rewrite app_nil_r.
  - by rewrite list_alter_id.
Qed.

Lemma stencil_spec i j coeffs (b : list float) :
  let id := flat_id ic i j in
  classify ic circles i j = None →
  0 ≤ id → (Z.to_nat id < length b)%nat →
  stencil id i j coeffs b circles ic bc_grid =
    Some (coeffs ++ point_coeffs circles ic bc_grid i j,
          alter (point_update circles ic bc_grid i j) (Z.to_nat id) b).
Proof.
  intros id Hc H0 Hlt. unfold stencil, point_coeffs, point_update. rewrite Hc.
  repeat (rewrite insertCoefficient_spec by (rewrite ?length_alter; done); cbn).
  rewrite !list_alter_alter_eq, <- !(assoc_L (++)). done.
Qed.

Lemma point_body_spec i j coeffs (b : list float) :
  let id := flat_id ic i j in
  0 ≤ id → (Z.to_nat id < length b)%nat →
  point_body circles ic bc_grid j i (coeffs, b) =
    Some (coeffs ++ point_coeffs circles ic bc_grid i j,
          alter (point_update circles ic bc_grid i j) (Z.to_nat id) b).
Proof.
  intros id H0 Hlt. unfold point_body. fold id.
  destruct (classify ic circles i j) as [[k c]|] eqn:Hc.
  - destruct (circles_size circles =? 0) eqn:E.
    { apply Z.eqb_eq, circles_size_nil in E. by rewrite E in Hc. }
    cbn [negb]. rewrite circularConditionsCheck_classify, Hc. cbn [fst snd].
    rewrite (classify_voltage _ _ _ _ Hc). cbn.
    rewrite b_set_alter by done. cbn.
    unfold point_coeffs, point_update. by rewrite Hc.
  - assert (stencil id i j coeffs b circles ic bc_grid =
      Some (coeffs ++ point_coeffs circles ic bc_grid i j,
            alter (point_update circles ic bc_grid i j) (Z.to_nat id) b))
      as Hs by by apply stencil_spec.
    rewrite circularConditionsCheck_classify, Hc. cbn [fst].
    by destruct (negb _).
Qed.
End Assembly.

(** ** Loops *)

Lemma seqZ_to_nat m n : seqZ m (Z.of_nat (Z.to_nat n)) = seqZ m n.
Proof. unfold seqZ. by rewrite Nat2Z.id. Qed.

(** A loop whose body always succeeds on states satisfying [Inv] is a left
    fold over its index range. *)
Lemma for_loop_foldl {St : Type} (Inv : St → Prop) (body : Z → St → option St)
    (f : St → Z → St) n k s :
  Inv s →
  (∀ i s', k ≤ i < k + Z.of_nat n → Inv s' → body i s' = Some (f s' i) ∧ Inv (f s' i)) →
  for_loop n k body s = Some (foldl f s (seqZ k (Z.of_nat n)))
  ∧ Inv (foldl f s (seqZ k (Z.of_nat n))).
Proof.
  revert k s. induction n as [|n IH]; intros k s Hs Hbody.
  - by rewrite seqZ_nil.
  - rewrite seqZ_cons by lia. cbn [for_loop foldl].
    destruct (Hbody k s) as [-> Hs']; [lia|done|]. cbn.
    replace (Z.pred (Z.of_nat (S n))) with (Z.of_nat n) by lia.
    replace (Z.succ k) with (k + 1) by lia.
    apply IH; [done|]. intros i s' Hi. apply Hbody. lia.
Qed.

Lemma foldl_pair {K A B : Type} (g : K → list A) (u : B → K → B) l cs b :
  foldl (λ s k, (s.1 ++ g k, u s.2 k)) (cs, b) l = (cs ++ (l ≫= g), foldl u b l).
Proof.
  revert cs b. induction l as [|x l IH]; intros cs b; cbn.
  - by rewrite app_nil_r.
  - rewrite IH. by rewrite <- (assoc_L (++)).
Qed.

Lemma bind_bind {A B C : Type} (f : A → list B) (g : B → list C) (l : list A) :
  (l ≫= f) ≫= g = l ≫= λ x, f x ≫= g.
Proof.
  induction l as [|x l IH]; [done|]. by rewrite !bind_cons, bind_app, IH.
Qed.

Lemma foldl_bind {A B C : Type} (f : A → B → A) (g : C → list B) a (l : list C) :
  foldl f a (l ≫= g) = foldl (λ a x, foldl f a (g x)) a l.
Proof.
  revert a. induction l as [|x l IH]; intros a; [done|].
  by rewrite bind_cons, foldl_app, IH.
Qed.

Lemma foldl_alter_length {K A : Type} (key : K → nat) (upd : K → A → A) ks (b : list A) :
  length (foldl (λ b k, alter (upd k) (key k) b) b ks) = length b.
Proof.
  revert b. induction ks as [|k ks IH]; intros b; [done|].
  cbn. by rewrite IH, length_alter.
Qed.

Lemma foldl_alter_miss {K A : Type} (key : K → nat) (upd : K → A → A) ks (b : list A) m :
  m ∉ key <$> ks →
  foldl (λ b k, alter (upd k) (key k) b) b ks !! m = b !! m.
Proof.
  revert b. induction ks as [|k ks IH]; intros b Hm; [done|].
  rewrite fmap_cons, not_elem_of_cons in Hm. destruct Hm as [Hne Hm].
  cbn. rewrite IH by done. by apply list_lookup_alter_ne.
Qed.

Lemma foldl_alter_hit {K A : Type} (key : K → nat) (upd : K → A → A) ks (b : list A) k :
  NoDup (key <$> ks) → k ∈ ks →
  foldl (λ b k, alter (upd k) (key k) b) b ks !! key k = upd k <$> b !! key k.
Proof.
  revert b. induction ks as [|k0 ks IH]; intros b Hnd Hk; [by inv Hk|].
  rewrite fmap_cons in Hnd. apply NoDup_cons in Hnd as [Hk0 Hnd]. cbn.
  apply elem_of_cons in Hk as [->|Hk].
  - rewrite foldl_alter_miss by done. apply list_lookup_alter_eq.
  - rewrite IH by done. rewrite list_lookup_alter_ne; [done|].
    intros E. apply Hk0. rewrite E. by apply list_elem_of_fmap_2.
Qed.

(** ** The flattened index *)

Lemma flat_id_range ic i j :
  0 ≤ i < x_grid_size ic → 0 ≤ j < y_grid_size ic →
  0 ≤ flat_id ic i j < x_grid_size ic * y_grid_size ic.
Proof.
  intros Hi Hj. unfold flat_id.
  assert (0 ≤ j * x_grid_size ic) by (apply Z.mul_nonneg_nonneg; lia).
  assert (j * x_grid_size ic ≤ (y_grid_size ic - 1) * x_grid_size ic)
    by (apply Z.mul_le_mono_nonneg_r; lia).
  lia.
Qed.

Lemma flat_id_inj ic i j i' j' :
  0 ≤ i < x_grid_size ic → 0 ≤ i' < x_grid_size ic →
  flat_id ic i j = flat_id ic i' j' → i = i' ∧ j = j'.
Proof.
  unfold flat_id. intros Hi Hi' E.
  assert (j = j') as -> by nia. lia.
Qed.

Lemma elem_of_points ic i j :
  (i, j) ∈ points ic ↔ 0 ≤ i < x_grid_size ic ∧ 0 ≤ j < y_grid_size ic.
Proof.
  unfold points. rewrite list_elem_of_bind. split.
  - intros (j' & (i' & [= -> ->] & Hi)%list_elem_of_fmap & Hj).
    apply elem_of_seqZ in Hi, Hj. lia.
  - intros [Hi Hj]. exists j. split.
    + apply list_elem_of_fmap. exists i. split; [done|]. apply elem_of_seqZ. lia.
    + apply elem_of_seqZ. lia.
Qed.

Lemma NoDup_points ic : NoDup (points ic).
Proof.
  unfold points. apply NoDup_bind.
  - intros j1 j2 [i j] _ _ (?&[= _ ->]&_)%list_elem_of_fmap (?&[= _ ->]&_)%list_elem_of_fmap.
    done.
  - intros j _. apply NoDup_fmap_2; [|apply NoDup_seqZ]. by intros ?? [= ->].
  - apply NoDup_seqZ.
Qed.

Lemma NoDup_point_ids ic :
  NoDup ((λ p, Z.to_nat (flat_id ic p.1 p.2)) <$> points ic).
Proof.
  apply NoDup_fmap_2_strong; [|apply NoDup_points].
  intros [i j] [i' j'] Hp Hp' E. cbn in E.
  apply elem_of_points in Hp, Hp'.
  pose proof (flat_id_range ic i j) as R. pose proof (flat_id_range ic i' j') as R'.
  destruct (flat_id_inj ic i j i' j') as [-> ->]; [lia|lia|lia|done].
Qed.

(** ** The whole pass *)

Section Pass.
Context (circles : list Circle) (ic : IC) (bc_grid : BC).
Local Abbreviation nx := (x_grid_size ic).
Local Abbreviation ny := (y_grid_size ic).

Lemma row_body_spec j coeffs (b : list float) :
  0 ≤ j < ny → length b = Z.to_nat (nx * ny) →
  row_body circles ic bc_grid j (coeffs, b) =
    Some (coeffs ++ (((λ i, (i, j)) <$> seqZ 0 nx) ≫=
                       λ p, point_coeffs circles ic bc_grid p.1 p.2),
          foldl (λ b p, alter (point_update circles ic bc_grid p.1 p.2)
                              (Z.to_nat (flat_id ic p.1 p.2)) b)
                b ((λ i, (i, j)) <$> seqZ 0 nx)).
Proof.
  intros Hj Hb. unfold row_body.
  destruct (for_loop_foldl (λ s, length s.2 = length b)
    (point_body circles ic bc_grid j)
    (λ s i, (s.1 ++ point_coeffs circles ic bc_grid i j,
             alter (point_update circles ic bc_grid i j)
                   (Z.to_nat (flat_id ic i j)) s.2))
    (Z.to_nat nx) 0 (coeffs, b)) as [-> _]; [done| |].
  - intros i [cs b'] Hi Hinv. cbn in Hinv.
    pose proof (flat_id_range ic i j) as R.
    rewrite point_body_spec by lia. cbn. by rewrite length_alter.
  - rewrite seqZ_to_nat.
    rewrite (foldl_pair (λ i, point_coeffs circles ic bc_grid i j)
      (λ b i, alter (point_update circles ic bc_grid i j)
                    (Z.to_nat (flat_id ic i j)) b)).
    by rewrite list_fmap_bind, foldl_fmap.
Qed.

(** [buildProblem] on a vector of the size [main] allocates: it succeeds,
    appends [all_coeffs] and leaves [rhs_vec]. *)
Lemma buildProblem_spec coeffs (b : list float) :
  length b = Z.to_nat (nx * ny) →
  buildProblem coeffs b circles ic bc_grid =
    Some (coeffs ++ all_coeffs circles ic bc_grid,
          rhs_vec circles ic bc_grid (length b)).
Proof.
  intros Hb. unfold buildProblem.
  destruct (for_loop_foldl (λ s, length s.2 = length b)
    (row_body circles ic bc_grid)
    (λ s j, (s.1 ++ (((λ i, (i, j)) <$> seqZ 0 nx) ≫=
                       λ p, point_coeffs circles ic bc_grid p.1 p.2),
             foldl (λ b p, alter (point_update circles ic bc_grid p.1 p.2)
                                 (Z.to_nat (flat_id ic p.1 p.2)) b)
                   s.2 ((λ i, (i, j)) <$> seqZ 0 nx)))
    (Z.to_nat ny) 0 (coeffs, replicate (length b) 0%float)) as [-> _].
  - cbn. by rewrite length_replicate.
  - intros j [cs b'] Hj Hinv. cbn in Hinv.
    rewrite row_body_spec by lia. cbn.
    by rewrite (foldl_alter_length (λ p, Z.to_nat (flat_id ic p.1 p.2))
      (λ p, point_update circles ic bc_grid p.1 p.2)).
  - rewrite seqZ_to_nat.
    rewrite (foldl_pair
      (λ j, ((λ i, (i, j)) <$> seqZ 0 nx) ≫=
            λ p, point_coeffs circles ic bc_grid p.1 p.2)
      (λ b j, foldl (λ b p, alter (point_update circles ic bc_grid p.1 p.2)
                                  (Z.to_nat (flat_id ic p.1 p.2)) b)
                    b ((λ i, (i, j)) <$> seqZ 0 nx))).
    unfold all_coeffs, rhs_vec, points. by rewrite bind_bind, foldl_bind.
Qed.

Lemma length_rhs_vec n : length (rhs_vec circles ic bc_grid n) = n.
Proof.
  unfold rhs_vec.
  rewrite (foldl_alter_length (λ p, Z.to_nat (flat_id ic p.1 p.2))
    (λ p, point_update circles ic bc_grid p.1 p.2)).
  apply length_replicate.
Qed.

(** Every grid point owns its slot of the right-hand side. *)
Lemma rhs_vec_lookup n i j :
  0 ≤ i < nx → 0 ≤ j < ny → (Z.to_nat (nx * ny) ≤ n)%nat →
  rhs_vec circles ic bc_grid n !! Z.to_nat (flat_id ic i j) =
    Some (point_update circles ic bc_grid i j 0%float).
Proof.
  intros Hi Hj Hn. unfold rhs_vec.
  rewrite (foldl_alter_hit (λ p, Z.to_nat (flat_id ic p.1 p.2))
    (λ p, point_update circles ic bc_grid p.1 p.2) (points ic) _ (i, j)).
  - cbn. rewrite lookup_replicate_2; [done|].
    pose proof (flat_id_range ic i j). lia.
  - apply NoDup_point_ids.
  - by apply elem_of_points.
Qed.

Lemma elem_of_all_coeffs t :
  t ∈ all_coeffs circles ic bc_grid ↔
  ∃ i j, 0 ≤ i < nx ∧ 0 ≤ j < ny ∧ t ∈ point_coeffs circles ic bc_grid i j.
Proof.
  unfold all_coeffs. rewrite list_elem_of_bind. split.
  - intros ([i j] & Ht & Hp%elem_of_points). exists i, j. by destruct Hp.
  - intros (i & j & Hi & Hj & Ht). exists (i, j). split; [done|].
    by apply elem_of_points.
Qed.
End Pass.

(** ** What a point emits *)

Lemma filter_Forall_all {A : Type} (P : A → Prop) `{!∀ x, Decision (P x)} (l : list A) :
  Forall P l → filter P l = l.
Proof.
  induction 1 as [|x l Hx _ IH]; [done|].
  by rewrite filter_cons, decide_True, IH.
Qed.

Lemma filter_Forall_none {A : Type} (P : A → Prop) `{!∀ x, Decision (P x)} (l : list A) :
  Forall (λ x, ¬ P x) l → filter P l = [].
Proof.
  induction 1 as [|x l Hx _ IH]; [done|].
  by rewrite filter_cons, decide_False, IH.
Qed.

(** In a concatenation of blocks, a predicate that holds on exactly one
    block selects that block. *)
Lemma filter_bind_unique {A B : Type} (P : B → Prop) `{!∀ y, Decision (P y)}
    (f : A → list B) (l : list A) x0 :
  NoDup l → x0 ∈ l →
  Forall P (f x0) →
  (∀ x, x ∈ l → x ≠ x0 → Forall (λ y, ¬ P y) (f x)) →
  filter P (l ≫= f) = f x0.
Proof.
  induction 1 as [|x l Hx Hnd IH]; intros Hin Hall Hnone; [by inv Hin|].
  rewrite bind_cons, filter_app.
  apply elem_of_cons in Hin as [->|Hin].
  - rewrite filter_Forall_all by done.
    rewrite (filter_Forall_none P (l ≫= f)); [by rewrite app_nil_r|].
    apply Forall_bind, Forall_forall. intros x' Hxl. apply Hnone.
    + by right.
    + intros ->. done.
  - rewrite filter_Forall_none.
    + apply IH; [done..|]. intros x' Hx'. apply Hnone. by right.
    + apply Hnone; [by left|]. intros ->. done.
Qed.

Lemma fmap_bind_list {A B C : Type} (f : B → C) (g : A → list B) (l : list A) :
  f <$> (l ≫= g) = l ≫= λ x, f <$> g x.
Proof. induction l as [|x l IH]; [done|]. by rewrite !bind_cons, fmap_app, IH. Qed.

Section Point.
Context (circles : list Circle) (ic : IC) (bc_grid : BC).
Local Abbreviation nx := (x_grid_size ic).
Local Abbreviation ny := (y_grid_size ic).

Lemma folded_None i j :
  folded circles ic bc_grid i j = None ↔
  i ≠ -1 ∧ i ≠ nx ∧ j ≠ -1 ∧ j ≠ ny ∧ classify ic circles i j = None.
Proof.
  unfold folded.
  destruct (Z.eqb_spec i (-1)); [intuition congruence|].
  destruct (Z.eqb_spec i nx); [intuition congruence|].
  destruct (Z.eqb_spec j (-1)); [intuition congruence|].
  destruct (Z.eqb_spec j ny); [intuition congruence|].
  rewrite fmap_None. intuition congruence.
Qed.

Lemma elem_of_emitted t id i j w :
  t ∈ emitted circles ic bc_grid id i j w ↔
  t = mkT id (flat_id ic i j) w ∧ folded circles ic bc_grid i j = None.
Proof.
  unfold emitted. destruct (folded circles ic bc_grid i j).
  - rewrite elem_of_nil. intuition congruence.
  - rewrite list_elem_of_singleton. intuition congruence.
Qed.

Lemma length_emitted id i j w :
  (length (emitted circles ic bc_grid id i j w) ≤ 1)%nat.
Proof. unfold emitted. destruct (folded _ _ _ _ _); cbn; lia. Qed.

(** The triplets of a grid point: the unit diagonal of a pinned point, or
    the diagonal [4] and one [-1] per neighbour that is an unknown. *)
Lemma elem_of_point_coeffs i j t :
  0 ≤ i < nx → 0 ≤ j < ny →
  t ∈ point_coeffs circles ic bc_grid i j ↔
    (is_Some (classify ic circles i j)
     ∧ t = mkT (flat_id ic i j) (flat_id ic i j) 1%float)
  ∨ (classify ic circles i j = None
     ∧ t = mkT (flat_id ic i j) (flat_id ic i j) 4%float)
  ∨ (classify ic circles i j = None
     ∧ ∃ ni nj, adjacent i j ni nj ∧ 0 ≤ ni < nx ∧ 0 ≤ nj < ny
         ∧ classify ic circles ni nj = None
         ∧ t = mkT (flat_id ic i j) (flat_id ic ni nj) (-1)%float).
Proof.
  intros Hi Hj. unfold point_coeffs.
  destruct (classify ic circles i j) as [p|] eqn:Hc.
  { rewrite list_elem_of_singleton. split.
    - intros ->. left. eauto.
    - intros [[_ ->]|[[? _]|[? _]]]; done. }
  rewrite !elem_of_app, !elem_of_emitted, !folded_None. unfold adjacent. split.
  - intros [H|[H|[H|[H|H]]]]; destruct H as (-> & ? & ? & ? & ? & Hn).
    + right; right. split; [done|]. exists (i - 1), j. split_and!; auto; lia.
    + right; right. split; [done|]. exists (i + 1), j. split_and!; auto; lia.
    + right; right. split; [done|]. exists i, (j - 1). split_and!; auto; lia.
    + right; right. split; [done|]. exists i, (j + 1). split_and!; auto; lia.
    + right; left. done.
  - intros [[[] _]|[[_ ->]|(_ & ni & nj & Hadj & ? & ? & ? & ->)]]; [done| |].
    + do 4 right. split_and!; auto; lia.
    + destruct Hadj as [[-> ->]|[[-> ->]|[[-> ->]|[-> ->]]]].
      * left. split_and!; auto; lia.
      * right; left. split_and!; auto; lia.
      * do 2 right; left. split_and!; auto; lia.
      * do 3 right; left. split_and!; auto; lia.
Qed.

Lemma point_coeffs_row i j :
  Forall (λ t, row t = flat_id ic i j) (point_coeffs circles ic bc_grid i j).
Proof.
  apply Forall_forall. intros t. unfold point_coeffs.
  destruct (classify ic circles i j).
  - rewrite list_elem_of_singleton. by intros ->.
  - rewrite !elem_of_app, !elem_of_emitted.
    intros [H|[H|[H|[H|H]]]]; by destruct H as [-> _].
Qed.

(** The row of a grid point in the assembled list is what its own
    iteration appended. *)
Lemma row_entries_all_coeffs i j :
  0 ≤ i < nx → 0 ≤ j < ny →
  row_entries (flat_id ic i j) (all_coeffs circles ic bc_grid)
  = point_coeffs circles ic bc_grid i j.
Proof.
  intros Hi Hj. unfold row_entries, all_coeffs.
  rewrite (filter_bind_unique _ _ _ (i, j)); [done|apply NoDup_points| | |].
  - by apply elem_of_points.
  - apply point_coeffs_row.
  - intros [i' j'] Hp Hne. cbn.
    eapply Forall_impl; [apply point_coeffs_row|]. cbn. intros t -> E.
    apply elem_of_points in Hp.
    destruct (flat_id_inj ic i' j' i j) as [-> ->]; [lia|lia|done|done].
Qed.

Lemma point_coeffs_range i j :
  0 ≤ i < nx → 0 ≤ j < ny →
  Forall (λ t, 0 ≤ row t < nx * ny ∧ 0 ≤ col t < nx * ny)
         (point_coeffs circles ic bc_grid i j).
Proof.
  intros Hi Hj. apply Forall_forall. intros t.
  rewrite elem_of_point_coeffs by done.
  pose proof (flat_id_range ic i j Hi Hj).
  intros [[_ ->]|[[_ ->]|(_ & ni & nj & _ & Hni & Hnj & _ & ->)]]; cbn; [done..|].
  pose proof (flat_id_range ic ni nj Hni Hnj). done.
Qed.

Lemma adjacent_sym i j ni nj : adjacent i j ni nj → adjacent ni nj i j.
Proof. unfold adjacent. lia. Qed.

(** One slot per (centre, reference) pair: the columns a point emits are
    pairwise different. *)
Lemma point_coeffs_NoDup i j :
  0 ≤ i < nx → 0 ≤ j < ny →
  NoDup ((λ t, (row t, col t)) <$> point_coeffs circles ic bc_grid i j).
Proof.
  intros Hi Hj. unfold point_coeffs, emitted.
  destruct (classify ic circles i j); [apply NoDup_singleton|].
  destruct (folded circles ic bc_grid (i - 1) j) eqn:E1;
  destruct (folded circles ic bc_grid (i + 1) j) eqn:E2;
  destruct (folded circles ic bc_grid i (j - 1)) eqn:E3;
  destruct (folded circles ic bc_grid i (j + 1)) eqn:E4;
  destruct (folded circles ic bc_grid i j) eqn:E5;
  repeat match goal with
  | H : folded _ _ _ _ _ = None |- _ =>
      apply folded_None in H; destruct H as (? & ? & ? & ? & _)
  end;
  cbn; rewrite ?NoDup_cons, ?not_elem_of_cons; repeat split;
  try apply NoDup_nil_2; try apply not_elem_of_nil;
  intros [=]; unfold flat_id in *; lia.
Qed.

Lemma all_coeffs_NoDup :
  NoDup ((λ t, (row t, col t)) <$> all_coeffs circles ic bc_grid).
Proof.
  unfold all_coeffs. rewrite fmap_bind_list. apply NoDup_bind.
  - intros [i j] [i' j'] [r c] Hp Hp'.
    intros (t & [= -> ->] & Ht)%list_elem_of_fmap
           (t' & [= Hr _] & Ht')%list_elem_of_fmap.
    pose proof (point_coeffs_row i j) as R. pose proof (point_coeffs_row i' j') as R'.
    rewrite Forall_forall in R, R'. cbn in Ht, Ht'.
    rewrite (R _ Ht), (R' _ Ht') in Hr.
    apply elem_of_points in Hp, Hp'.
    destruct (flat_id_inj ic i j i' j') as [-> ->]; [lia|lia|done|done].
  - intros [i j] [Hi Hj]%elem_of_points. by apply point_coeffs_NoDup.
  - apply NoDup_points.
Qed.

Lemma all_coeffs_symmetric r c w :
  r ≠ c →
  mkT r c w ∈ all_coeffs circles ic bc_grid →
  mkT c r w ∈ all_coeffs circles ic bc_grid.
Proof.
  intros Hne (i & j & Hi & Hj & Ht)%elem_of_all_coeffs.
  apply elem_of_point_coeffs in Ht; [|done..].
  destruct Ht as [[_ E]|[[_ E]|(Hc & ni & nj & Hadj & Hni & Hnj & Hnc & E)]];
    injection E as -> -> ->; [done..|].
  apply elem_of_all_coeffs. exists ni, nj. split_and!; [lia..|].
  apply elem_of_point_coeffs; [done..|]. do 2 right. split; [done|].
  exists i, j. split_and!; auto using adjacent_sym; lia.
Qed.

Lemma abs_sum_neg_ones (offs : list T) :
  (length offs ≤ 4)%nat → Forall (λ t, value t = (-1)%float) offs →
  (abs_sum offs <=? 4)%float = true.
Proof.
  intros Hlen Hall. unfold abs_sum.
  destruct offs as [|t1 [|t2 [|t3 [|t4 [|t5 ?]]]]]; cbn in Hlen; [..|lia];
    repeat match goal with
    | H : Forall _ (_ :: _) |- _ => apply Forall_cons in H as [? H]
    end; cbn; repeat match goal with H : value _ = _ |- _ => rewrite H; clear H end;
    reflexivity.
Qed.
End Point.

(** ** Reshaping *)







(** ** The machine model *)

Lemma wrap_id z : Machine.int_min ≤ z ≤ Machine.int_max → Machine.wrap z = z.
Proof.
  unfold Machine.wrap, Machine.int_min, Machine.int_max.
  change (2 ^ 31) with 2147483648. change (2 ^ 32) with 4294967296.
  intros Hz. rewrite Z.mod_small by lia. lia.
Qed.

Lemma int_max_pos : 0 < Machine.int_max.
Proof. done. Qed.

Lemma int_min_neg : Machine.int_min < 0.
Proof. done. Qed.

(** Where [nx*ny] fits in [int], the [int] index of a grid point is its
    ideal index. *)
Lemma machine_flat_id ic i j :
  0 ≤ i < x_grid_size ic → 0 ≤ j < y_grid_size ic →
  x_grid_size ic * y_grid_size ic ≤ Machine.int_max →
  Machine.flat_id ic i j = flat_id ic i j.
Proof.
  intros Hi Hj Hmax. pose proof (flat_id_range ic i j Hi Hj) as R.
  pose proof int_min_neg. unfold flat_id in R.
  assert (0 ≤ j * x_grid_size ic) by (apply Z.mul_nonneg_nonneg; lia).
  unfold Machine.flat_id, Machine.int_add, Machine.int_mul, flat_id.
  rewrite (wrap_id (j * x_grid_size ic)) by lia. apply wrap_id. lia.
Qed.

Lemma machine_system_size ic :
  Machine.int_min ≤ x_grid_size ic * y_grid_size ic ≤ Machine.int_max →
  Machine.system_size ic = x_grid_size ic * y_grid_size ic.
Proof. apply wrap_id. Qed.

Lemma for_loop_ext {St : Type} (body body' : Z → St → option St) n k s :
  (∀ i s', k ≤ i < k + Z.of_nat n → body i s' = body' i s') →
  for_loop n k body s = for_loop n k body' s.
Proof.
  revert k s. induction n as [|n IH]; intros k s Hext; [done|]. cbn.
  rewrite <- Hext by lia. destruct (body k s) as [s1|]; [|done]. cbn.
  apply IH. intros i s' Hi. apply Hext. lia.
Qed.

(** A loop whose body succeeds and keeps the invariant on its whole range
    succeeds and keeps it. *)
Lemma for_loop_total {St : Type} (Inv : St → Prop) (body : Z → St → option St) n k s :
  Inv s →
  (∀ i s1, k ≤ i < k + Z.of_nat n → Inv s1 → ∃ s2, body i s1 = Some s2 ∧ Inv s2) →
  ∃ s', for_loop n k body s = Some s' ∧ Inv s'.
Proof.
  revert k s. induction n as [|n IH]; intros k s Hs Hbody; [by exists s|]. cbn.
  destruct (Hbody k s) as (s1 & -> & Hs1); [lia|done|]. cbn.
  apply IH; [done|]. intros i s2 Hi. apply Hbody. lia.
Qed.


Section MachineClassifier.
Context (pow : float → float → float).

Lemma machine_in_circle_inside ic i j c :
  Machine.in_circle pow i j ic c = true ↔ Machine.inside pow ic i j c.
Proof. reflexivity. Qed.

Lemma machine_circle_loop_find ic i j rest k :
  Machine.circle_loop pow i j ic rest k =
    match list_find (Machine.inside pow ic i j) rest with
    | Some (n, _) => (true, k + Z.of_nat n)
    | None => (false, 0)
    end.
Proof.
  revert k. induction rest as [|c rest IH]; intros k; [done|].
  cbn [Machine.circle_loop list_find]. case_decide as Hc.
  - apply machine_in_circle_inside in Hc. rewrite Hc. f_equal. lia.
  - destruct (Machine.in_circle pow i j ic c) eqn:E;
      [by apply machine_in_circle_inside in E|].
    rewrite IH. destruct (list_find _ rest) as [[n c']|]; [|done].
    cbn. f_equal. lia.
Qed.

Lemma machine_check_classify ic circles i j :
  Machine.circularConditionsCheck pow i j circles ic =
    match Machine.classify pow ic circles i j with
    | Some (k, _) => (true, Z.of_nat k)
    | None => (false, 0)
    end.
Proof.
  unfold Machine.circularConditionsCheck, Machine.classify.
  by rewrite machine_circle_loop_find.
Qed.

(** The index of a positive answer is a row of [circles]. *)
Lemma machine_check_voltage ic circles i j :
  (Machine.circularConditionsCheck pow i j circles ic).1 = true →
  is_Some (circle_voltage circles (Machine.circularConditionsCheck pow i j circles ic).2).
Proof.
  rewrite machine_check_classify.
  destruct (Machine.classify pow ic circles i j) as [[n c]|] eqn:Hc; [|done].
  intros _. apply list_find_Some in Hc as (Hc & _). cbn.
  unfold circle_voltage. rewrite decide_True by lia. rewrite Nat2Z.id, Hc. by eexists.
Qed.

Lemma machine_guarded_check ic circles i j :
  (if negb (circles_size circles =? 0)
   then Machine.circularConditionsCheck pow i j circles ic
   else (false, 0)) = Machine.circularConditionsCheck pow i j circles ic.
Proof.
  destruct (circles_size circles =? 0) eqn:E; [|done].
  apply Z.eqb_eq, circles_size_nil in E. by rewrite E.
Qed.
End MachineClassifier.

Section MachinePass.
Context (pow : float → float → float).
Context (circles : list Circle) (ic : IC) (bc_grid : BC).
Local Abbreviation nx := (x_grid_size ic).
Local Abbreviation ny := (y_grid_size ic).
Hypothesis Hfits : nx * ny ≤ Machine.int_max.

Lemma b_sub_total (b : list float) id v :
  0 ≤ id < Z.of_nat (length b) →
  ∃ b', b_sub b id v = Some b' ∧ length b' = length b.
Proof.
  intros Hid. rewrite b_sub_alter by lia. eexists. split; [done|].
  by rewrite length_alter.
Qed.

(** One call made by the pass succeeds, keeps the size of [b] and appends at
    most a triplet of the system. *)
Lemma machine_insert_ok id i j w cs (b : list float) :
  0 ≤ id < nx * ny → reachable ic i j →
  pass_inv ic (Z.to_nat (nx * ny)) (cs, b) →
  ∃ s', Machine.insertCoefficient pow id i j w cs b circles ic bc_grid = Some s'
        ∧ pass_inv ic (Z.to_nat (nx * ny)) s'.
Proof.
  intros Hid Hreach [Hlen Hcs]. cbn in Hlen, Hcs.
  assert (∀ v, ∃ b', b_sub b id v = Some b' ∧ length b' = Z.to_nat (nx * ny)) as Hsub.
  { intros v. destruct (b_sub_total b id v) as (b' & ? & ?); [lia|].
    exists b'. split; [done|congruence]. }
  unfold Machine.insertCoefficient. cbv zeta. rewrite machine_guarded_check.
  destruct (Z.eqb_spec i (-1)) as [|Hi1].
  { destruct (Hsub (w * bc_left bc_grid)%float) as (b' & -> & ?). by eexists. }
  destruct (Z.eqb_spec i nx) as [|Hi2].
  { destruct (Hsub (w * bc_right bc_grid)%float) as (b' & -> & ?). by eexists. }
  destruct (Z.eqb_spec j (-1)) as [|Hj1].
  { destruct (Hsub (w * bc_up bc_grid)%float) as (b' & -> & ?). by eexists. }
  destruct (Z.eqb_spec j ny) as [|Hj2].
  { destruct (Hsub (w * bc_down bc_grid)%float) as (b' & -> & ?). by eexists. }
  destruct ((Machine.circularConditionsCheck pow i j circles ic).1) eqn:E.
  { destruct (machine_check_voltage pow ic circles i j E) as [v ->]. cbn.
    destruct (Hsub (w * v)%float) as (b' & -> & ?). by eexists. }
  eexists. split; [done|]. split; [done|]. cbn.
  apply Forall_app. split; [done|]. apply Forall_singleton.
  assert (0 ≤ i < nx ∧ 0 ≤ j < ny) as [Hi Hj] by (unfold reachable in Hreach; lia).
  split; cbn; [done|]. rewrite machine_flat_id by done. by apply flat_id_range.
Qed.

Lemma machine_stencil_ok id i j s :
  0 ≤ id < nx * ny → 0 ≤ i < nx → 0 ≤ j < ny →
  pass_inv ic (Z.to_nat (nx * ny)) s →
  ∃ s', Machine.stencil pow id i j s.1 s.2 circles ic bc_grid = Some s'
        ∧ pass_inv ic (Z.to_nat (nx * ny)) s'.
Proof.
  intros Hid Hi Hj Hs. destruct s as [c0 b0]. unfold Machine.stencil. cbn [fst snd].
  destruct (machine_insert_ok id (i - 1) j (-1)%float c0 b0) as ([c1 b1] & -> & H1);
    [done|unfold reachable; lia|done|]. cbn.
  destruct (machine_insert_ok id (i + 1) j (-1)%float c1 b1) as ([c2 b2] & -> & H2);
    [done|unfold reachable; lia|done|]. cbn.
  destruct (machine_insert_ok id i (j - 1) (-1)%float c2 b2) as ([c3 b3] & -> & H3);
    [done|unfold reachable; lia|done|]. cbn.
  destruct (machine_insert_ok id i (j + 1) (-1)%float c3 b3) as ([c4 b4] & -> & H4);
    [done|unfold reachable; lia|done|]. cbn.
  apply machine_insert_ok; [done|unfold reachable; lia|done].
Qed.

Lemma machine_point_ok j i s :
  0 ≤ i < nx → 0 ≤ j < ny →
  pass_inv ic (Z.to_nat (nx * ny)) s →
  ∃ s', Machine.point_body pow circles ic bc_grid j i s = Some s'
        ∧ pass_inv ic (Z.to_nat (nx * ny)) s'.
Proof.
  intros Hi Hj Hs. pose proof (flat_id_range ic i j Hi Hj) as R.
  pose proof (machine_stencil_ok (flat_id ic i j) i j s R Hi Hj Hs) as Hst.
  destruct s as [cs b]. unfold Machine.point_body. cbv zeta.
  rewrite machine_flat_id by done. cbn [fst snd] in Hst.
  destruct (negb (circles_size circles =? 0)); [|done].
  destruct ((Machine.circularConditionsCheck pow i j circles ic).1) eqn:E; [|done].
  destruct (machine_check_voltage pow ic circles i j E) as [v ->]. cbn.
  destruct Hs as [Hlen Hcs]. cbn in Hlen, Hcs.
  rewrite b_set_alter by lia. cbn. eexists. split; [done|]. split; cbn.
  - by rewrite length_alter.
  - apply Forall_app. split; [done|]. by apply Forall_singleton.
Qed.

Lemma machine_row_ok j s :
  0 ≤ j < ny → pass_inv ic (Z.to_nat (nx * ny)) s →
  ∃ s', Machine.row_body pow circles ic bc_grid j s = Some s'
        ∧ pass_inv ic (Z.to_nat (nx * ny)) s'.
Proof.
  intros Hj Hs. unfold Machine.row_body. apply for_loop_total; [done|].
  intros i s1 Hi Hs1. apply machine_point_ok; [lia|done|done].
Qed.

(** On a vector of [nx*ny] entries the machine pass runs to its end. *)
Lemma machine_pass_ok cs (b : list float) :
  length b = Z.to_nat (nx * ny) → Forall (in_system ic) cs →
  ∃ s', Machine.buildProblem pow cs b circles ic bc_grid = Some s'
        ∧ pass_inv ic (Z.to_nat (nx * ny)) s'.
Proof.
  intros Hb Hcs. unfold Machine.buildProblem. cbv zeta.
  apply for_loop_total.
  - split; cbn; [by rewrite length_replicate|done].
  - intros j s1 Hj Hs1. apply machine_row_ok; [lia|done].
Qed.
End MachinePass.

(** ** The two models side by side

    Where [nx*ny] fits in [int] and [pow(x,2)] is the rounded product [x*x],
    the machine model and the ideal one are the same program. *)

Section MachineIdeal.
Context (pow : float → float → float).
Hypothesis Hpow : ∀ x, pow x 2%float = (x * x)%float.

Lemma machine_in_circle_exact i j ic c :
  Machine.in_circle pow i j ic c = in_circle i j ic c.
Proof. unfold Machine.in_circle, in_circle, pow2. by rewrite !Hpow. Qed.

Lemma machine_circle_loop_exact i j ic rest k :
  Machine.circle_loop pow i j ic rest k = circle_loop i j ic rest k.
Proof.
  revert k. induction rest as [|c rest IH]; intros k; [done|].
  cbn [Machine.circle_loop circle_loop].
  by rewrite machine_in_circle_exact, IH.
Qed.

Lemma machine_check_exact i j circles ic :
  Machine.circularConditionsCheck pow i j circles ic
  = circularConditionsCheck i j circles ic.
Proof. apply machine_circle_loop_exact. Qed.

Context (circles : list Circle) (ic : IC) (bc_grid : BC).
Local Abbreviation nx := (x_grid_size ic).
Local Abbreviation ny := (y_grid_size ic).
Hypothesis Hfits : nx * ny ≤ Machine.int_max.

Lemma machine_insert_exact id i j w cs (b : list float) :
  reachable ic i j →
  Machine.insertCoefficient pow id i j w cs b circles ic bc_grid
  = insertCoefficient id i j w cs b circles ic bc_grid.
Proof.
  intros Hreach. unfold Machine.insertCoefficient, insertCoefficient. cbv zeta.
  rewrite machine_check_exact.
  destruct (Z.eqb_spec i (-1)) as [|Hi1]; [done|].
  destruct (Z.eqb_spec i nx) as [|Hi2]; [done|].
  destruct (Z.eqb_spec j (-1)) as [|Hj1]; [done|].
  destruct (Z.eqb_spec j ny) as [|Hj2]; [done|].
  assert (0 ≤ i < nx ∧ 0 ≤ j < ny) as [Hi Hj] by (unfold reachable in Hreach; lia).
  by rewrite machine_flat_id.
Qed.

Lemma machine_point_exact j i s :
  0 ≤ i < nx → 0 ≤ j < ny →
  Machine.point_body pow circles ic bc_grid j i s = point_body circles ic bc_grid j i s.
Proof.
  intros Hi Hj. destruct s as [cs b]. unfold Machine.point_body, point_body.
  cbv zeta. rewrite machine_check_exact, machine_flat_id by done.
  assert (∀ cs b, Machine.stencil pow (flat_id ic i j) i j cs b circles ic bc_grid
                  = stencil (flat_id ic i j) i j cs b circles ic bc_grid) as ->; [|done].
  clear cs b. intros cs b. unfold Machine.stencil, stencil.
  rewrite machine_insert_exact by (unfold reachable; lia).
  destruct (insertCoefficient _ (i - 1) _ _ _ _ _ _ _) as [[c1 b1]|]; [cbn|done].
  rewrite machine_insert_exact by (unfold reachable; lia).
  destruct (insertCoefficient _ (i + 1) _ _ _ _ _ _ _) as [[c2 b2]|]; [cbn|done].
  rewrite machine_insert_exact by (unfold reachable; lia).
  destruct (insertCoefficient _ _ (j - 1) _ _ _ _ _ _) as [[c3 b3]|]; [cbn|done].
  rewrite machine_insert_exact by (unfold reachable; lia).
  destruct (insertCoefficient _ _ (j + 1) _ _ _ _ _ _) as [[c4 b4]|]; [cbn|done].
  apply machine_insert_exact. unfold reachable. lia.
Qed.

Lemma machine_pass_exact cs (b : list float) :
  Machine.buildProblem pow cs b circles ic bc_grid
  = buildProblem cs b circles ic bc_grid.
Proof.
  unfold Machine.buildProblem, buildProblem. cbv zeta.
  apply for_loop_ext. intros j s Hj.
  unfold Machine.row_body, row_body. apply for_loop_ext. intros i s' Hi.
  apply machine_point_exact; lia.
Qed.
End MachineIdeal.

Lemma pow_exact_square x : pow_exact x 2%float = (x * x)%float.
Proof. done. Qed.



(** * The claims *)

(** C1. A grid point that the classifier reports inside inclusion [k] gets
    exactly one coefficient in its row, the unit diagonal [(id,id,1.0)], and
    [rhs[id]] is the voltage of inclusion [k]; no neighbour is processed for
    it, so the row holds nothing else and the voltage is stored unchanged.
    (A positive answer of the classifier implies that the inclusion list is
    not empty.) *)
Theorem C1_pinned_point circles ic bc_grid (b0 : list float) i j k :
  0 ≤ i < x_grid_size ic → 0 ≤ j < y_grid_size ic →
  length b0 = Z.to_nat (x_grid_size ic * y_grid_size ic) →
  circularConditionsCheck i j circles ic = (true, k) →
  ∃ coeffs b c,
    buildProblem [] b0 circles ic bc_grid = Some (coeffs, b)
    ∧ circles ≠ [] ∧ 0 ≤ k ∧ circles !! Z.to_nat k = Some c
    ∧ row_entries (flat_id ic i j) coeffs
      = [mkT (flat_id ic i j) (flat_id ic i j) 1%float]
    ∧ b !! Z.to_nat (flat_id ic i j) = Some (voltage c).
Proof.
  intros Hi Hj Hb Hk. rewrite buildProblem_spec by done.
  rewrite circularConditionsCheck_classify in Hk.
  destruct (classify ic circles i j) as [[n c]|] eqn:Hc; [|done].
  injection Hk as <-. pose proof Hc as (Hn & _)%list_find_Some.
  eexists _, _, c. split; [done|]. rewrite Nat2Z.id. split_and!.
  - by intros ->.
  - lia.
  - done.
  - cbn [app]. rewrite row_entries_all_coeffs by done.
    unfold point_coeffs. by rewrite Hc.
  - rewrite rhs_vec_lookup by (done || lia).
    unfold point_update. by rewrite Hc.
Qed.

Lemma C1_pinned_point_witness :
  let ic := mkIC 2 2 0 1 0 1 in
  let circles := [mkCircle 0 0 0.25 5] in
  let b0 := [7; 7; 7; 7]%float in
  (0 ≤ 0 < x_grid_size ic) ∧ (0 ≤ 0 < y_grid_size ic)
  ∧ length b0 = Z.to_nat (x_grid_size ic * y_grid_size ic)
  ∧ circularConditionsCheck 0 0 circles ic = (true, 0)
  ∧ ∃ coeffs b c,
      buildProblem [] b0 circles ic (mkBC 1 2 3 4) = Some (coeffs, b)
      ∧ circles ≠ [] ∧ 0 ≤ 0 ∧ circles !! Z.to_nat 0 = Some c
      ∧ row_entries (flat_id ic 0 0) coeffs
        = [mkT (flat_id ic 0 0) (flat_id ic 0 0) 1%float]
      ∧ b !! Z.to_nat (flat_id ic 0 0) = Some (voltage c).
Proof.
  intros ic circles b0.
  split; [cbn; lia|]. split; [cbn; lia|]. split; [reflexivity|].
  split; [reflexivity|].
  apply (C1_pinned_point circles ic (mkBC 1 2 3 4) b0 0 0 0);
    [cbn; lia|cbn; lia|reflexivity|reflexivity].
Defined.

(** C2. A reference one step outside a grid edge is folded into the
    right-hand side of the centre point: [rhs[centerId]] decreases by
    [weight] times the voltage of that side of the box (left for [ni = -1],
    right for [ni = nx], up for [nj = -1], down for [nj = ny]), that is,
    [-weight] times the voltage is added, and no coefficient is emitted.
    The inclusions are never consulted, so the rule also applies when the
    location lies inside one. *)
Theorem C2_box_edge_folding circles ic bc_grid id w coeffs (b : list float) old :
  1 ≤ x_grid_size ic → 1 ≤ y_grid_size ic →
  0 ≤ id → b !! Z.to_nat id = Some old →
  let fold v := Some (coeffs, <[Z.to_nat id := (old - w * v)%float]> b) in
  (∀ nj, insertCoefficient id (-1) nj w coeffs b circles ic bc_grid
         = fold (bc_left bc_grid))
  ∧ (∀ nj, insertCoefficient id (x_grid_size ic) nj w coeffs b circles ic bc_grid
           = fold (bc_right bc_grid))
  ∧ (∀ ni, 0 ≤ ni < x_grid_size ic →
           insertCoefficient id ni (-1) w coeffs b circles ic bc_grid
           = fold (bc_up bc_grid))
  ∧ (∀ ni, 0 ≤ ni < x_grid_size ic →
           insertCoefficient id ni (y_grid_size ic) w coeffs b circles ic bc_grid
           = fold (bc_down bc_grid))
  ∧ (∀ v, (old - w * v)%float = (old + (- w) * v)%float).
Proof.
  intros Hnx Hny H0 Hold fold. unfold insertCoefficient, fold. split_and!.
  - intros nj. cbn [Z.eqb]. rewrite Pos.eqb_refl.
    by rewrite (b_sub_insert _ _ old).
  - intros nj. destruct (Z.eqb_spec (x_grid_size ic) (-1)); [lia|].
    rewrite Z.eqb_refl. by rewrite (b_sub_insert _ _ old).
  - intros ni Hni. destruct (Z.eqb_spec ni (-1)); [lia|].
    destruct (Z.eqb_spec ni (x_grid_size ic)); [lia|].
    cbn [Z.eqb]. rewrite Pos.eqb_refl. by rewrite (b_sub_insert _ _ old).
  - intros ni Hni. destruct (Z.eqb_spec ni (-1)); [lia|].
    destruct (Z.eqb_spec ni (x_grid_size ic)); [lia|].
    destruct (Z.eqb_spec (y_grid_size ic) (-1)); [lia|].
    rewrite Z.eqb_refl. by rewrite (b_sub_insert _ _ old).
  - intros v. apply sub_mul_add.
Qed.

Lemma C2_box_edge_folding_witness :
  let ic := mkIC 1 1 0 1 0 1 in
  let circles := [mkCircle 0 0 10 5] in
  1 ≤ x_grid_size ic ∧ 1 ≤ y_grid_size ic ∧ 0 ≤ 0
  ∧ [7%float] !! Z.to_nat 0 = Some 7%float
  ∧ (circularConditionsCheck (-1) 0 circles ic).1 = true
  ∧ insertCoefficient 0 (-1) 0 (-1)%float [] [7%float] circles ic (mkBC 1 2 3 4)
    = Some ([], [10%float]).
Proof.
  intros ic circles.
  split; [cbn; lia|]. split; [cbn; lia|]. split; [lia|]. split; [reflexivity|].
  split; [reflexivity|].
  destruct (C2_box_edge_folding circles ic (mkBC 1 2 3 4) 0 (-1)%float []
              [7%float] 7%float) as (Hw & _);
    [cbn; lia|cbn; lia|lia|reflexivity|].
  rewrite Hw. reflexivity.
Defined.

(** C3. The emitted coefficients are symmetric off the diagonal: for
    [r <> c], the triplet [(r,c,w)] is in the list if and only if [(c,r,w)]
    is. *)
Theorem C3_symmetric circles ic bc_grid (b0 : list float) :
  length b0 = Z.to_nat (x_grid_size ic * y_grid_size ic) →
  ∃ coeffs b,
    buildProblem [] b0 circles ic bc_grid = Some (coeffs, b)
    ∧ ∀ r c w, r ≠ c → (mkT r c w ∈ coeffs ↔ mkT c r w ∈ coeffs).
Proof.
  intros Hb. rewrite buildProblem_spec by done. eexists _, _. split; [done|].
  intros r c w Hne. cbn [app]. split; apply all_coeffs_symmetric; done.
Qed.

Lemma C3_symmetric_witness :
  let ic := mkIC 2 2 0 1 0 1 in
  let b0 := [7; 7; 7; 7]%float in
  length b0 = Z.to_nat (x_grid_size ic * y_grid_size ic)
  ∧ ∃ coeffs b,
      buildProblem [] b0 [mkCircle 0 0 0.25 5] ic (mkBC 1 2 3 4) = Some (coeffs, b)
      ∧ ∀ r c w, r ≠ c → (mkT r c w ∈ coeffs ↔ mkT c r w ∈ coeffs).
Proof.
  intros ic b0. split; [reflexivity|].
  apply (C3_symmetric [mkCircle 0 0 0.25 5] ic (mkBC 1 2 3 4) b0). reflexivity.
Defined.


(** C5. On a 1x1 grid without inclusions, whatever the extents and the box
    voltages, the pass produces the single coefficient [(0,0,4.0)] and
    [rhs[0] = left + right + up + down]: the four voltages are added, in this
    order, to the zeroed slot, which is their sum (with [+0] where the sum
    of four zeros is [-0]). *)
Theorem C5_single_cell ic bc_grid (b0 : list float) :
  x_grid_size ic = 1 → y_grid_size ic = 1 → length b0 = 1%nat →
  ∃ v, buildProblem [] b0 [] ic bc_grid = Some ([mkT 0 0 4%float], [v])
       ∧ v = (0 + bc_left bc_grid + bc_right bc_grid
              + bc_up bc_grid + bc_down bc_grid)%float
       ∧ same_double v (bc_left bc_grid + bc_right bc_grid
                        + bc_up bc_grid + bc_down bc_grid)%float.
Proof.
  destruct ic as [nx ny x0 x1 y0 y1], bc_grid as [u d l r]. cbn.
  intros -> -> Hb. destruct b0 as [|g [|??]]; try done.
  exists (0 + l + r + u + d)%float. split_and!.
  - rewrite <- fold_four. vm_compute. reflexivity.
  - done.
  - apply sum_from_zero.
Qed.

Lemma C5_single_cell_witness :
  x_grid_size (mkIC 1 1 0 1 0 1) = 1 ∧ y_grid_size (mkIC 1 1 0 1 0 1) = 1
  ∧ length [7%float] = 1%nat
  ∧ ∃ v, buildProblem [] [7%float] [] (mkIC 1 1 0 1 0 1) (mkBC 1 2 3 4)
           = Some ([mkT 0 0 4%float], [v])
         ∧ v = (0 + 3 + 4 + 1 + 2)%float
         ∧ same_double v (3 + 4 + 1 + 2)%float.
Proof.
  split; [reflexivity|]. split; [reflexivity|]. split; [reflexivity|].
  apply (C5_single_cell (mkIC 1 1 0 1 0 1) (mkBC 1 2 3 4) [7%float]); reflexivity.
Defined.

(** C6. For a grid point that no inclusion pins, the self-term call
    [(ni,nj,w) = (i,j,4)] always takes the emitting branch; the row of the
    point therefore consists of at most four entries of value [-1] off the
    diagonal followed by the one diagonal entry [(id,id,4)], and it is
    diagonally dominant. *)
Theorem C6_unpinned_row circles ic bc_grid (b0 : list float) i j :
  0 ≤ i < x_grid_size ic → 0 ≤ j < y_grid_size ic →
  length b0 = Z.to_nat (x_grid_size ic * y_grid_size ic) →
  (circularConditionsCheck i j circles ic).1 = false →
  let id := flat_id ic i j in
  (∀ cs b, insertCoefficient id i j 4%float cs b circles ic bc_grid
           = Some (cs ++ [mkT id id 4%float], b))
  ∧ ∃ coeffs b offs,
      buildProblem [] b0 circles ic bc_grid = Some (coeffs, b)
      ∧ row_entries id coeffs = offs ++ [mkT id id 4%float]
      ∧ (length offs ≤ 4)%nat
      ∧ Forall (λ t, row t = id ∧ col t ≠ id ∧ value t = (-1)%float) offs
      ∧ diagonally_dominant id (row_entries id coeffs).
Proof.
  intros Hi Hj Hb Hpin id.
  assert (classify ic circles i j = None) as Hc.
  { rewrite circularConditionsCheck_classify in Hpin.
    by destruct (classify ic circles i j) as [[]|]. }
  assert (folded circles ic bc_grid i j = None) as Hself
    by (apply folded_None; split_and!; [lia..|done]).
  split.
  - intros cs b. unfold insertCoefficient.
    rewrite guarded_check, Hpin.
    destruct (Z.eqb_spec i (-1)); [lia|].
    destruct (Z.eqb_spec i (x_grid_size ic)); [lia|].
    destruct (Z.eqb_spec j (-1)); [lia|].
    destruct (Z.eqb_spec j (y_grid_size ic)); [lia|]. done.
  - rewrite buildProblem_spec by done.
    eexists _, _,
      (emitted circles ic bc_grid id (i - 1) j (-1)%float
       ++ emitted circles ic bc_grid id (i + 1) j (-1)%float
       ++ emitted circles ic bc_grid id i (j - 1) (-1)%float
       ++ emitted circles ic bc_grid id i (j + 1) (-1)%float).
    split; [done|]. cbn [app].
    pose proof (row_entries_all_coeffs circles ic bc_grid i j Hi Hj) as Hrow.
    fold id in Hrow. rewrite Hrow. clear Hrow.
    assert (Forall (λ t, row t = id ∧ col t ≠ id ∧ value t = (-1)%float)
      (emitted circles ic bc_grid id (i - 1) j (-1)%float
       ++ emitted circles ic bc_grid id (i + 1) j (-1)%float
       ++ emitted circles ic bc_grid id i (j - 1) (-1)%float
       ++ emitted circles ic bc_grid id i (j + 1) (-1)%float)) as Hoffs.
    { rewrite !Forall_app. split_and!; apply Forall_forall;
        intros t [-> _]%elem_of_emitted; cbn; split_and!; try done;
        unfold id, flat_id; lia. }
    assert (point_coeffs circles ic bc_grid i j =
      (emitted circles ic bc_grid id (i - 1) j (-1)%float
       ++ emitted circles ic bc_grid id (i + 1) j (-1)%float
       ++ emitted circles ic bc_grid id i (j - 1) (-1)%float
       ++ emitted circles ic bc_grid id i (j + 1) (-1)%float)
      ++ [mkT id id 4%float]) as ->.
    { unfold point_coeffs. rewrite Hc. fold id.
      rewrite <- !(assoc_L (++)). do 4 f_equal.
      unfold emitted. by rewrite Hself. }
    assert (length
      (emitted circles ic bc_grid id (i - 1) j (-1)%float
       ++ emitted circles ic bc_grid id (i + 1) j (-1)%float
       ++ emitted circles ic bc_grid id i (j - 1) (-1)%float
       ++ emitted circles ic bc_grid id i (j + 1) (-1)%float) ≤ 4)%nat as Hlen.
    { rewrite !length_app.
      pose proof (length_emitted circles ic bc_grid id (i - 1) j (-1)%float).
      pose proof (length_emitted circles ic bc_grid id (i + 1) j (-1)%float).
      pose proof (length_emitted circles ic bc_grid id i (j - 1) (-1)%float).
      pose proof (length_emitted circles ic bc_grid id i (j + 1) (-1)%float).
      lia. }
    split_and!; [done..|].
    revert Hoffs Hlen.
    generalize (emitted circles ic bc_grid id (i - 1) j (-1)%float
       ++ emitted circles ic bc_grid id (i + 1) j (-1)%float
       ++ emitted circles ic bc_grid id i (j - 1) (-1)%float
       ++ emitted circles ic bc_grid id i (j + 1) (-1)%float).
    intros offs Hoffs Hlen.
    unfold diagonally_dominant. rewrite !filter_app.
    rewrite (filter_Forall_all (λ t, col t ≠ id))
      by (eapply Forall_impl; [exact Hoffs|]; by intros t (_ & ? & _)).
    rewrite (filter_Forall_none (λ t, col t = id))
      by (eapply Forall_impl; [exact Hoffs|]; by intros t (_ & ? & _)).
    rewrite !filter_cons, !filter_nil. cbn [col].
    rewrite decide_False by (intros E; by apply E).
    rewrite decide_True by done. rewrite app_nil_r. cbn [app].
    change (abs_sum [mkT id id 4%float]) with 4%float.
    apply abs_sum_neg_ones; [done|].
    eapply Forall_impl; [exact Hoffs|]. by intros t (_ & _ & ?).
Qed.

Lemma C6_unpinned_row_witness :
  let ic := mkIC 2 2 0 1 0 1 in
  let circles := [mkCircle 0 0 0.25 5] in
  let b0 := [7; 7; 7; 7]%float in
  let id := flat_id ic 1 1 in
  (0 ≤ 1 < x_grid_size ic) ∧ (0 ≤ 1 < y_grid_size ic)
  ∧ length b0 = Z.to_nat (x_grid_size ic * y_grid_size ic)
  ∧ (circularConditionsCheck 1 1 circles ic).1 = false
  ∧ (∀ cs b, insertCoefficient id 1 1 4%float cs b circles ic (mkBC 1 2 3 4)
             = Some (cs ++ [mkT id id 4%float], b))
  ∧ ∃ coeffs b offs,
      buildProblem [] b0 circles ic (mkBC 1 2 3 4) = Some (coeffs, b)
      ∧ row_entries id coeffs = offs ++ [mkT id id 4%float]
      ∧ (length offs ≤ 4)%nat
      ∧ Forall (λ t, row t = id ∧ col t ≠ id ∧ value t = (-1)%float) offs
      ∧ diagonally_dominant id (row_entries id coeffs).
Proof.
  intros ic circles b0 id.
  split; [cbn; lia|]. split; [cbn; lia|]. split; [reflexivity|].
  split; [reflexivity|].
  apply (C6_unpinned_row circles ic (mkBC 1 2 3 4) b0 1 1);
    [cbn; lia|cbn; lia|reflexivity|reflexivity].
Defined.




(** C8. Assembly is deterministic: the outcome of [buildProblem] is a function
    of the grid, the box voltages, the inclusions and the coefficient list it
    is handed; the former contents of the vector [b], which [main] leaves
    uninitialised, have no influence.  Two runs on the same input give the
    same coefficients in the same order and the same right-hand side. *)
Theorem C8_deterministic circles ic bc_grid coeffs (b1 b2 : list float) :
  length b1 = Z.to_nat (x_grid_size ic * y_grid_size ic) →
  length b2 = Z.to_nat (x_grid_size ic * y_grid_size ic) →
  ∃ out, buildProblem coeffs b1 circles ic bc_grid = Some out
         ∧ buildProblem coeffs b2 circles ic bc_grid = Some out.
Proof.
  intros H1 H2. rewrite !buildProblem_spec by done.
  rewrite H1, H2. eauto.
Qed.

Lemma C8_deterministic_witness :
  let ic := mkIC 2 2 0 1 0 1 in
  let circles := [mkCircle 0 0 0.25 5] in
  let b1 := [7; 7; 7; 7]%float in
  let b2 := [0; 1; 2; 3]%float in
  length b1 = Z.to_nat (x_grid_size ic * y_grid_size ic)
  ∧ length b2 = Z.to_nat (x_grid_size ic * y_grid_size ic)
  ∧ ∃ out, buildProblem [] b1 circles ic (mkBC 1 2 3 4) = Some out
           ∧ buildProblem [] b2 circles ic (mkBC 1 2 3 4) = Some out.
Proof.
  intros ic circles b1 b2.
  split; [reflexivity|]. split; [reflexivity|].
  apply (C8_deterministic circles ic (mkBC 1 2 3 4) [] b1 b2); reflexivity.
Defined.

(** C9. No two emitted coefficients share their (row, column) pair. *)
Theorem C9_no_duplicate_slots circles ic bc_grid (b0 : list float) :
  length b0 = Z.to_nat (x_grid_size ic * y_grid_size ic) →
  ∃ coeffs b,
    buildProblem [] b0 circles ic bc_grid = Some (coeffs, b)
    ∧ NoDup ((λ t, (row t, col t)) <$> coeffs).
Proof.
  intros Hb. rewrite buildProblem_spec by done. eexists _, _. split; [done|].
  apply all_coeffs_NoDup.
Qed.

Lemma C9_no_duplicate_slots_witness :
  let ic := mkIC 2 2 0 1 0 1 in
  let b0 := [7; 7; 7; 7]%float in
  length b0 = Z.to_nat (x_grid_size ic * y_grid_size ic)
  ∧ ∃ coeffs b,
      buildProblem [] b0 [mkCircle 0 0 0.25 5] ic (mkBC 1 2 3 4) = Some (coeffs, b)
      ∧ NoDup ((λ t, (row t, col t)) <$> coeffs).
Proof.
  intros ic b0. split; [reflexivity|].
  apply (C9_no_duplicate_slots [mkCircle 0 0 0.25 5] ic (mkBC 1 2 3 4) b0).
  reflexivity.
Defined.

(** C10. On a grid with [nx, ny >= 1] whose size [nx*ny] fits in an [int],
    and on the vector of [ic(0,0)*ic(0,1)] entries that [main] allocates, the
    pass runs to its end, so every access to the right-hand side is in
    bounds, the only index written for grid point [(i,j)] being
    [i + j*nx]; and every emitted coefficient has its row and its column in
    [[0, nx*ny)]. *)
Theorem C10_indices_in_bounds (pow : float → float → float)
    circles ic bc_grid (b0 : list float) :
  1 ≤ x_grid_size ic → 1 ≤ y_grid_size ic →
  x_grid_size ic * y_grid_size ic ≤ Machine.int_max →
  Z.of_nat (length b0) = Machine.system_size ic →
  Machine.system_size ic = x_grid_size ic * y_grid_size ic
  ∧ ∃ coeffs b,
      Machine.buildProblem pow [] b0 circles ic bc_grid = Some (coeffs, b)
      ∧ Z.of_nat (length b) = x_grid_size ic * y_grid_size ic
      ∧ (∀ i j, 0 ≤ i < x_grid_size ic → 0 ≤ j < y_grid_size ic →
           0 ≤ Machine.flat_id ic i j < x_grid_size ic * y_grid_size ic)
      ∧ Forall (λ t, 0 ≤ row t < x_grid_size ic * y_grid_size ic
                     ∧ 0 ≤ col t < x_grid_size ic * y_grid_size ic) coeffs.
Proof.
  intros Hnx Hny Hfits Hb.
  assert (0 ≤ x_grid_size ic * y_grid_size ic) as Hpos
    by (apply Z.mul_nonneg_nonneg; lia).
  pose proof int_min_neg as Hmin.
  assert (Machine.system_size ic = x_grid_size ic * y_grid_size ic) as Hsize
    by (apply machine_system_size; lia).
  split; [done|].
  destruct (machine_pass_ok pow circles ic bc_grid Hfits [] b0)
    as ([coeffs b] & Hrun & Hlen & Hcoeffs); [lia|done|].
  exists coeffs, b. cbn in Hlen, Hcoeffs. split_and!; [done|lia| |done].
  intros i j Hi Hj. rewrite machine_flat_id by done. by apply flat_id_range.
Qed.

Lemma C10_indices_in_bounds_witness :
  let ic := mkIC 2 2 0 1 0 1 in
  let b0 := [7; 7; 7; 7]%float in
  (1 ≤ x_grid_size ic ∧ 1 ≤ y_grid_size ic
   ∧ x_grid_size ic * y_grid_size ic ≤ Machine.int_max
   ∧ Z.of_nat (length b0) = Machine.system_size ic)
  ∧ Machine.system_size ic = x_grid_size ic * y_grid_size ic
  ∧ ∃ coeffs b,
      Machine.buildProblem pow_exact [] b0 [mkCircle 0 0 0.25 5] ic (mkBC 1 2 3 4)
      = Some (coeffs, b)
      ∧ Z.of_nat (length b) = x_grid_size ic * y_grid_size ic
      ∧ (∀ i j, 0 ≤ i < x_grid_size ic → 0 ≤ j < y_grid_size ic →
           0 ≤ Machine.flat_id ic i j < x_grid_size ic * y_grid_size ic)
      ∧ Forall (λ t, 0 ≤ row t < x_grid_size ic * y_grid_size ic
                     ∧ 0 ≤ col t < x_grid_size ic * y_grid_size ic) coeffs.
Proof.
  intros ic b0.
  split; [split; [cbn; lia|]; split; [cbn; lia|]; split; [by vm_compute|reflexivity]|].
  apply (C10_indices_in_bounds pow_exact [mkCircle 0 0 0.25 5] ic (mkBC 1 2 3 4) b0);
    [cbn; lia|cbn; lia|by vm_compute|reflexivity].
Defined.

(** Without the bound the indices leave the system.  On the grid of 65536
    columns and 65536 rows the size [ic(0,0)*ic(0,1)] is [0] in [int], so
    [main] allocates an empty vector and the pass fails at its first access;
    and the self-term call for grid point [(0,65535)], whose index is
    [-65536], emits a triplet of row and column [-65536]. *)
Lemma C10_counterexample :
  let ic := mkIC 65536 65536 0 1 0 1 in
  let bc := mkBC 0 0 0 0 in
  (1 ≤ x_grid_size ic ∧ 1 ≤ y_grid_size ic)
  ∧ Machine.system_size ic = 0
  ∧ Machine.buildProblem pow_exact [] [] [] ic bc = None
  ∧ (0 ≤ 0 < x_grid_size ic ∧ 0 ≤ 65535 < y_grid_size ic
     ∧ Machine.flat_id ic 0 65535 = -65536)
  ∧ Machine.insertCoefficient pow_exact (Machine.flat_id ic 0 65535) 0 65535 4%float
      [] [] [] ic bc
    = Some ([mkT (-65536) (-65536) 4%float], []).
Proof.
  intros ic bc. split; [cbn; lia|]. split; [reflexivity|].
  split; [by vm_compute|]. split; [|reflexivity].
  cbn. repeat split; (lia || reflexivity).
Qed.

(** * Further properties of the code *)

(** ** One call of [insertCoefficient], without assumptions *)

(** The branches of [insertCoefficient]: a known reference is folded, which
    reads and writes [b(id)]; an unknown one appends a triplet and leaves [b]
    alone. *)
Lemma insertCoefficient_folded circles ic bc_grid id i j w coeffs (b : list float) :
  insertCoefficient id i j w coeffs b circles ic bc_grid =
    match folded circles ic bc_grid i j with
    | Some v => b' ← b_sub b id (w * v)%float; Some (coeffs, b')
    | None => Some (coeffs ++ [mkT id (flat_id ic i j) w], b)
    end.
Proof.
  unfold insertCoefficient, folded.
  rewrite guarded_check, circularConditionsCheck_classify.
  repeat (case_match; [done|]).
  destruct (classify ic circles i j) as [[k c]|] eqn:Hc; cbn; [|done].
  by rewrite (classify_voltage _ _ _ _ _ _ Hc).
Qed.

Lemma b_sub_None (b : list float) id v :
  ¬ (0 ≤ id ∧ (Z.to_nat id < length b)%nat) → b_sub b id v = None.
Proof.
  intros Hout. unfold b_sub, b_get. case_decide as H0; [|done].
  rewrite lookup_ge_None_2; [done|]. lia.
Qed.

Lemma b_sub_Some (b b' : list float) id v :
  b_sub b id v = Some b' →
  0 ≤ id ∧ ∃ old, b !! Z.to_nat id = Some old
                  ∧ b' = <[Z.to_nat id := (old - v)%float]> b.
Proof.
  unfold b_sub, b_set, b_get. case_decide as H0; [|done].
  destruct (b !! Z.to_nat id) as [old|] eqn:Hl; [|done]. cbn.
  intros [= <-]. eauto.
Qed.

Lemma folded_check_true circles ic bc_grid i j k :
  i ≠ -1 → i ≠ x_grid_size ic → j ≠ -1 → j ≠ y_grid_size ic →
  circularConditionsCheck i j circles ic = (true, k) →
  ∃ c, circles !! Z.to_nat k = Some c ∧ 0 ≤ k
       ∧ folded circles ic bc_grid i j = Some (voltage c).
Proof.
  intros H1 H2 H3 H4. rewrite circularConditionsCheck_classify.
  destruct (classify ic circles i j) as [[n c]|] eqn:Hc; [|done].
  intros [= <-]. exists c. rewrite Nat2Z.id.
  pose proof Hc as (Hn & _)%list_find_Some. split_and!; [done|lia|].
  unfold folded.
  destruct (Z.eqb_spec i (-1)); [done|]. destruct (Z.eqb_spec i (x_grid_size ic)); [done|].
  destruct (Z.eqb_spec j (-1)); [done|]. destruct (Z.eqb_spec j (y_grid_size ic)); [done|].
  by rewrite Hc.
Qed.

Lemma classify_check_false circles ic i j :
  classify ic circles i j = None ↔ (circularConditionsCheck i j circles ic).1 = false.
Proof.
  rewrite circularConditionsCheck_classify.
  by destruct (classify ic circles i j) as [[]|].
Qed.

(** X1. A reference that passes the four box tests and that the classifier
    reports inside inclusion [k] is folded with the voltage of that
    inclusion: [b(id)] decreases by [w] times the voltage and no triplet is
    appended.  The reference need not lie in the grid. *)
Theorem X1_inclusion_folding circles ic bc_grid id i j w coeffs (b : list float) old k :
  i ≠ -1 → i ≠ x_grid_size ic → j ≠ -1 → j ≠ y_grid_size ic →
  circularConditionsCheck i j circles ic = (true, k) →
  0 ≤ id → b !! Z.to_nat id = Some old →
  ∃ c, circles !! Z.to_nat k = Some c
       ∧ insertCoefficient id i j w coeffs b circles ic bc_grid
         = Some (coeffs, <[Z.to_nat id := (old - w * voltage c)%float]> b).
Proof.
  intros H1 H2 H3 H4 Hk H0 Hold.
  destruct (folded_check_true circles ic bc_grid i j k) as (c & Hc & _ & Hf); [done..|].
  exists c. split; [done|].
  rewrite insertCoefficient_folded, Hf. by rewrite (b_sub_insert _ _ old).
Qed.

Lemma X1_inclusion_folding_witness :
  let ic := mkIC 3 3 0 3 0 3 in
  let circles := [mkCircle 0 0 0.5 9; mkCircle 1 1 0.5 5] in
  1 ≠ -1 ∧ 1 ≠ x_grid_size ic ∧ 1 ≠ -1 ∧ 1 ≠ y_grid_size ic
  ∧ circularConditionsCheck 1 1 circles ic = (true, 1)
  ∧ 0 ≤ 0 ∧ [7%float] !! Z.to_nat 0 = Some 7%float
  ∧ ∃ c, circles !! Z.to_nat 1 = Some c
         ∧ insertCoefficient 0 1 1 (-1)%float [] [7%float] circles ic (mkBC 1 2 3 4)
           = Some ([], <[Z.to_nat 0 := (7 - -1 * voltage c)%float]> [7%float]).
Proof.
  intros ic circles.
  split; [done|]. split; [done|]. split; [done|]. split; [done|].
  split; [reflexivity|]. split; [done|]. split; [reflexivity|].
  apply (X1_inclusion_folding circles ic (mkBC 1 2 3 4) 0 1 1 (-1)%float []
           [7%float] 7%float 1); done.
Defined.

(** X2. A reference that passes the four box tests and lies in no inclusion
    appends exactly the triplet [(id, i + j*nx, w)], its column being the
    value of [i + j*ic(0,0)] in [int].  The vector [b] is not accessed, so
    the call succeeds whatever [id] and the size of [b] are, and neither [id]
    nor the column is checked against the dimension of the system. *)
Theorem X2_unknown_emits (pow : float → float → float)
    circles ic bc_grid id i j w coeffs (b : list float) :
  i ≠ -1 → i ≠ x_grid_size ic → j ≠ -1 → j ≠ y_grid_size ic →
  (Machine.circularConditionsCheck pow i j circles ic).1 = false →
  Machine.insertCoefficient pow id i j w coeffs b circles ic bc_grid
  = Some (coeffs ++ [mkT id (Machine.flat_id ic i j) w], b).
Proof.
  intros H1 H2 H3 H4 Hc. unfold Machine.insertCoefficient. cbv zeta.
  rewrite machine_guarded_check, Hc.
  destruct (Z.eqb_spec i (-1)); [done|].
  destruct (Z.eqb_spec i (x_grid_size ic)); [done|].
  destruct (Z.eqb_spec j (-1)); [done|].
  by destruct (Z.eqb_spec j (y_grid_size ic)).
Qed.

Lemma X2_unknown_emits_witness :
  let ic := mkIC 65536 65536 0 1 0 1 in
  (0 ≠ -1 ∧ 0 ≠ x_grid_size ic ∧ 65535 ≠ -1 ∧ 65535 ≠ y_grid_size ic
   ∧ (Machine.circularConditionsCheck pow_exact 0 65535 [mkCircle 0 0 0.25 5] ic).1
     = false)
  ∧ Machine.insertCoefficient pow_exact 99 0 65535 4%float [] []
      [mkCircle 0 0 0.25 5] ic (mkBC 1 2 3 4)
    = Some ([mkT 99 (-65536) 4%float], []).
Proof.
  intros ic.
  split; [split; [done|]; split; [done|]; split; [done|]; split; [done|reflexivity]|].
  apply (X2_unknown_emits pow_exact [mkCircle 0 0 0.25 5] ic (mkBC 1 2 3 4)
           99 0 65535 4%float [] []); done.
Defined.

(** X3. [insertCoefficient] fails exactly when it has a known value to fold
    and [id] is not an index of [b]; a successful call keeps the size of [b]
    and the triplets already in the list. *)
Theorem X3_insert_failure circles ic bc_grid id i j w coeffs (b : list float) :
  (insertCoefficient id i j w coeffs b circles ic bc_grid = None ↔
     is_Some (folded circles ic bc_grid i j)
     ∧ ¬ (0 ≤ id ∧ (Z.to_nat id < length b)%nat))
  ∧ (∀ coeffs' b',
       insertCoefficient id i j w coeffs b circles ic bc_grid = Some (coeffs', b') →
       length b' = length b ∧ coeffs `prefix_of` coeffs').
Proof.
  rewrite insertCoefficient_folded.
  destruct (folded circles ic bc_grid i j) as [v|]; split.
  - split.
    + intros Hn. split; [eauto|]. intros [H0 Hlt].
      destruct (lookup_lt_is_Some_2 b _ Hlt) as [old Hold].
      by rewrite (b_sub_insert _ _ old) in Hn.
    + intros [_ Hout]. by rewrite b_sub_None.
  - intros coeffs' b'. destruct (b_sub b id (w * v)) as [b1|] eqn:Hs; [|done].
    cbn. intros [= <- <-]. apply b_sub_Some in Hs as (_ & old & _ & ->).
    by rewrite length_insert.
  - split; [done|]. by intros [[] _].
  - intros coeffs' b' [= <- <-]. split; [done|]. by apply prefix_app_r.
Qed.

(** ** The pass on a vector of any size *)

Lemma b_set_None (b : list float) id v :
  ¬ (0 ≤ id ∧ (Z.to_nat id < length b)%nat) → b_set b id v = None.
Proof.
  intros Hout. unfold b_set, b_get. case_decide as H0; [|done].
  rewrite lookup_ge_None_2; [done|]. lia.
Qed.

Lemma b_set_Some (b b' : list float) id v :
  b_set b id v = Some b' → length b' = length b.
Proof.
  unfold b_set. destruct (b_get b id); [|done]. cbn. intros [= <-].
  apply length_insert.
Qed.

Lemma insertCoefficient_length circles ic bc_grid id i j w coeffs (b : list float) coeffs' b' :
  insertCoefficient id i j w coeffs b circles ic bc_grid = Some (coeffs', b') →
  length b' = length b.
Proof.
  rewrite insertCoefficient_folded.
  destruct (folded circles ic bc_grid i j) as [v|]; [|by intros [= _ <-]].
  destruct (b_sub b id (w * v)) as [b1|] eqn:Hs; [|done].
  cbn. intros [= _ <-]. apply b_sub_Some in Hs as (_ & old & _ & ->).
  apply length_insert.
Qed.

Lemma stencil_length circles ic bc_grid id i j coeffs (b : list float) coeffs' b' :
  stencil id i j coeffs b circles ic bc_grid = Some (coeffs', b') →
  length b' = length b.
Proof.
  unfold stencil. intros H.
  repeat match type of H with
  | (insertCoefficient ?a ?b ?c ?d ?e ?f ?g ?h ?k ≫= _) = Some _ =>
      let E := fresh "E" in
      destruct (insertCoefficient a b c d e f g h k) as [[? ?]|] eqn:E;
      [apply insertCoefficient_length in E; cbn in H|done]
  end.
  apply insertCoefficient_length in H. congruence.
Qed.

Lemma point_body_length circles ic bc_grid j i coeffs (b : list float) coeffs' b' :
  point_body circles ic bc_grid j i (coeffs, b) = Some (coeffs', b') →
  length b' = length b.
Proof.
  unfold point_body.
  destruct (negb _); [|apply stencil_length].
  destruct (circularConditionsCheck i j circles ic).1; [|apply stencil_length].
  destruct (circle_voltage _ _) as [v|]; [|done]. cbn.
  destruct (b_set b _ v) as [b1|] eqn:Hs; [|done]. cbn.
  intros [= _ <-]. by apply b_set_Some in Hs.
Qed.

(** An invariant of the body that holds at the start holds at the end. *)
Lemma for_loop_inv {St : Type} (Inv : St → Prop) (body : Z → St → option St) n k s s' :
  (∀ i s1 s2, Inv s1 → body i s1 = Some s2 → Inv s2) →
  Inv s → for_loop n k body s = Some s' → Inv s'.
Proof.
  intros Hbody. revert k s. induction n as [|n IH]; intros k s Hs; cbn.
  - by intros [= <-].
  - destruct (body k s) as [s1|] eqn:Hb; [|done]. cbn. eauto.
Qed.

(** A loop one of whose iterations fails on every state of the invariant
    fails. *)
Lemma for_loop_fails {St : Type} (Inv : St → Prop) (body : Z → St → option St) n k s i :
  (∀ i s1 s2, Inv s1 → body i s1 = Some s2 → Inv s2) →
  Inv s → k ≤ i < k + Z.of_nat n → (∀ s1, Inv s1 → body i s1 = None) →
  for_loop n k body s = None.
Proof.
  intros Hbody Hs Hi Hfail. revert k s Hs Hi.
  induction n as [|n IH]; intros k s Hs Hi; [lia|]. cbn.
  destruct (body k s) as [s1|] eqn:Hb; [|done]. cbn.
  destruct (decide (i = k)) as [->|Hne]; [by rewrite Hfail in Hb|].
  apply IH; [eauto|lia].
Qed.

Lemma row_body_length circles ic bc_grid j coeffs (b : list float) coeffs' b' :
  row_body circles ic bc_grid j (coeffs, b) = Some (coeffs', b') →
  length b' = length b.
Proof.
  unfold row_body. intros H.
  apply (for_loop_inv (λ s, length s.2 = length b)) in H; [done| |done].
  intros i [c1 b1] [c2 b2] Hinv Hb. cbn in *.
  apply point_body_length in Hb. congruence.
Qed.

Section AnySize.
Context (circles : list Circle) (ic : IC) (bc_grid : BC).
Local Abbreviation nx := (x_grid_size ic).
Local Abbreviation ny := (y_grid_size ic).

(** Every grid point has its slot in a vector [b]. *)
Local Abbreviation fits b :=
  (∀ i j, 0 ≤ i < nx → 0 ≤ j < ny → (Z.to_nat (flat_id ic i j) < length b)%nat).

Lemma fits_iff (b : list float) :
  fits b ↔ nx ≤ 0 ∨ ny ≤ 0 ∨ (Z.to_nat (nx * ny) ≤ length b)%nat.
Proof.
  split.
  - intros Hfit. destruct (decide (nx ≤ 0)); [auto|].
    destruct (decide (ny ≤ 0)); [auto|]. do 2 right.
    specialize (Hfit (nx - 1) (ny - 1)). unfold flat_id in Hfit. nia.
  - intros [H|[H|H]] i j Hi Hj; [lia..|].
    pose proof (flat_id_range ic i j Hi Hj). lia.
Qed.

Lemma row_body_spec_fits j coeffs (b : list float) :
  0 ≤ j < ny → fits b →
  row_body circles ic bc_grid j (coeffs, b) =
    Some (coeffs ++ (((λ i, (i, j)) <$> seqZ 0 nx) ≫=
                       λ p, point_coeffs circles ic bc_grid p.1 p.2),
          foldl (λ b p, alter (point_update circles ic bc_grid p.1 p.2)
                              (Z.to_nat (flat_id ic p.1 p.2)) b)
                b ((λ i, (i, j)) <$> seqZ 0 nx)).
Proof.
  intros Hj Hb. unfold row_body.
  destruct (for_loop_foldl (λ s, length s.2 = length b)
    (point_body circles ic bc_grid j)
    (λ s i, (s.1 ++ point_coeffs circles ic bc_grid i j,
             alter (point_update circles ic bc_grid i j)
                   (Z.to_nat (flat_id ic i j)) s.2))
    (Z.to_nat nx) 0 (coeffs, b)) as [-> _]; [done| |].
  - intros i [cs b'] Hi Hinv. cbn in Hinv.
    pose proof (flat_id_range ic i j) as R. specialize (Hb i j).
    rewrite point_body_spec by lia. cbn. by rewrite length_alter.
  - rewrite seqZ_to_nat.
    rewrite (foldl_pair (λ i, point_coeffs circles ic bc_grid i j)
      (λ b i, alter (point_update circles ic bc_grid i j)
                    (Z.to_nat (flat_id ic i j)) b)).
    by rewrite list_fmap_bind, foldl_fmap.
Qed.

Lemma buildProblem_spec_fits coeffs (b : list float) :
  fits b →
  buildProblem coeffs b circles ic bc_grid =
    Some (coeffs ++ all_coeffs circles ic bc_grid,
          rhs_vec circles ic bc_grid (length b)).
Proof.
  intros Hb. unfold buildProblem.
  destruct (for_loop_foldl (λ s, length s.2 = length b)
    (row_body circles ic bc_grid)
    (λ s j, (s.1 ++ (((λ i, (i, j)) <$> seqZ 0 nx) ≫=
                       λ p, point_coeffs circles ic bc_grid p.1 p.2),
             foldl (λ b p, alter (point_update circles ic bc_grid p.1 p.2)
                                 (Z.to_nat (flat_id ic p.1 p.2)) b)
                   s.2 ((λ i, (i, j)) <$> seqZ 0 nx)))
    (Z.to_nat ny) 0 (coeffs, replicate (length b) 0%float)) as [-> _].
  - cbn. by rewrite length_replicate.
  - intros j [cs b'] Hj Hinv. cbn in Hinv.
    rewrite row_body_spec_fits; [|lia|intros ????; rewrite Hinv; by apply Hb].
    cbn. by rewrite (foldl_alter_length (λ p, Z.to_nat (flat_id ic p.1 p.2))
        (λ p, point_update circles ic bc_grid p.1 p.2)).
  - rewrite seqZ_to_nat.
    rewrite (foldl_pair
      (λ j, ((λ i, (i, j)) <$> seqZ 0 nx) ≫=
            λ p, point_coeffs circles ic bc_grid p.1 p.2)
      (λ b j, foldl (λ b p, alter (point_update circles ic bc_grid p.1 p.2)
                                  (Z.to_nat (flat_id ic p.1 p.2)) b)
                    b ((λ i, (i, j)) <$> seqZ 0 nx))).
    unfold all_coeffs, rhs_vec, points. by rewrite bind_bind, foldl_bind.
Qed.

(** The last grid point reads its slot of [b] whatever the inclusions are:
    it is pinned, or its east neighbour is the box. *)
Lemma last_point_fails coeffs (b : list float) :
  1 ≤ nx → 1 ≤ ny → (length b < Z.to_nat (nx * ny))%nat →
  point_body circles ic bc_grid (ny - 1) (nx - 1) (coeffs, b) = None.
Proof.
  intros Hnx Hny Hb.
  assert (¬ (0 ≤ flat_id ic (nx - 1) (ny - 1)
             ∧ (Z.to_nat (flat_id ic (nx - 1) (ny - 1)) < length b)%nat)) as Hout
    by (unfold flat_id; nia).
  assert (stencil (flat_id ic (nx - 1) (ny - 1)) (nx - 1) (ny - 1) coeffs b
            circles ic bc_grid = None) as Hst.
  { unfold stencil. rewrite insertCoefficient_folded.
    destruct (folded circles ic bc_grid (nx - 1 - 1) (ny - 1)) as [v|].
    { by rewrite b_sub_None. }
    cbn. rewrite insertCoefficient_folded.
    assert (folded circles ic bc_grid (nx - 1 + 1) (ny - 1)
            = Some (bc_right bc_grid)) as ->.
    { unfold folded. destruct (Z.eqb_spec (nx - 1 + 1) (-1)); [lia|].
      by destruct (Z.eqb_spec (nx - 1 + 1) nx); [|lia]. }
    by rewrite b_sub_None. }
  unfold point_body. destruct (negb _); [|done].
  destruct (circularConditionsCheck _ _ _ _).1; [|done].
  destruct (circle_voltage _ _) as [v|]; [|done]. cbn.
  by rewrite b_set_None.
Qed.

Lemma buildProblem_short coeffs (b : list float) :
  1 ≤ nx → 1 ≤ ny → (length b < Z.to_nat (nx * ny))%nat →
  buildProblem coeffs b circles ic bc_grid = None.
Proof.
  intros Hnx Hny Hb. unfold buildProblem.
  apply (for_loop_fails (λ s, length s.2 = length b) _ _ _ _ (ny - 1)).
  - intros j [c1 b1] [c2 b2] Hinv Hr. cbn in *.
    apply row_body_length in Hr. congruence.
  - cbn. apply length_replicate.
  - lia.
  - intros [c1 b1] Hinv. cbn in Hinv. unfold row_body.
    apply (for_loop_fails (λ s, length s.2 = length b) _ _ _ _ (nx - 1)).
    + intros i [c2 b2] [c3 b3] Hinv2 Hp. cbn in *.
      apply point_body_length in Hp. congruence.
    + done.
    + lia.
    + intros [c2 b2] Hinv2. cbn in Hinv2. apply last_point_fails; lia.
Qed.

(** The outcome of [buildProblem] in every case. *)
Lemma buildProblem_cases coeffs (b : list float) :
  buildProblem coeffs b circles ic bc_grid =
    if decide (nx ≤ 0 ∨ ny ≤ 0 ∨ (Z.to_nat (nx * ny) ≤ length b)%nat)
    then Some (coeffs ++ all_coeffs circles ic bc_grid,
               rhs_vec circles ic bc_grid (length b))
    else None.
Proof.
  case_decide as Hd.
  - apply buildProblem_spec_fits. by apply fits_iff.
  - apply buildProblem_short; lia.
Qed.

Lemma points_empty : nx ≤ 0 ∨ ny ≤ 0 → points ic = [].
Proof.
  intros H. destruct (points ic) as [|[i j] l] eqn:E; [done|].
  assert ((i, j) ∈ points ic) as Hp%elem_of_points by (rewrite E; by left). lia.
Qed.
End AnySize.

(** X4. On a grid with at least one point, [buildProblem] runs to its end
    exactly when [b] has at least [nx*ny] entries; on a shorter vector some
    access [b(id)] falls outside it, whatever the inclusions and the box
    voltages are. *)
Theorem X4_pass_needs_room circles ic bc_grid coeffs (b : list float) :
  1 ≤ x_grid_size ic → 1 ≤ y_grid_size ic →
  (is_Some (buildProblem coeffs b circles ic bc_grid)
   ↔ (Z.to_nat (x_grid_size ic * y_grid_size ic) ≤ length b)%nat).
Proof.
  intros Hnx Hny. rewrite buildProblem_cases. case_decide as Hd.
  - split; [|eauto]. intros _. destruct Hd as [?|[?|?]]; lia.
  - split; [by intros []|]. intros ?. destruct Hd. auto.
Qed.

Lemma X4_pass_needs_room_witness :
  let ic := mkIC 2 2 0 1 0 1 in
  1 ≤ x_grid_size ic ∧ 1 ≤ y_grid_size ic
  ∧ buildProblem [] [7; 7; 7]%float [mkCircle 0 0 0.25 5] ic (mkBC 1 2 3 4) = None.
Proof.
  intros ic. split; [cbn; lia|]. split; [cbn; lia|].
  destruct (buildProblem [] [7; 7; 7]%float [mkCircle 0 0 0.25 5] ic (mkBC 1 2 3 4))
    as [out|] eqn:E; [|reflexivity].
  exfalso.
  assert (Z.to_nat (x_grid_size ic * y_grid_size ic) ≤ length [7; 7; 7]%float)%nat
    as Hle; [|cbn in Hle; lia].
  apply (X4_pass_needs_room [mkCircle 0 0 0.25 5] ic (mkBC 1 2 3 4) []);
    [cbn; lia|cbn; lia|]. rewrite E. eauto.
Defined.

(** X5. On a grid without points ([nx <= 0] or [ny <= 0]) the pass appends
    nothing and only zeroes [b], whatever its size. *)
Theorem X5_empty_grid circles ic bc_grid coeffs (b : list float) :
  x_grid_size ic ≤ 0 ∨ y_grid_size ic ≤ 0 →
  buildProblem coeffs b circles ic bc_grid
  = Some (coeffs, replicate (length b) 0%float).
Proof.
  intros Hempty. rewrite buildProblem_cases.
  rewrite decide_True by (destruct Hempty; auto).
  unfold all_coeffs, rhs_vec. rewrite points_empty by done.
  cbn. by rewrite app_nil_r.
Qed.

Lemma X5_empty_grid_witness :
  let ic := mkIC 0 3 0 1 0 1 in
  (x_grid_size ic ≤ 0 ∨ y_grid_size ic ≤ 0)
  ∧ buildProblem [mkT 8 9 2%float] [7; 7]%float [mkCircle 0 0 1 5] ic (mkBC 1 2 3 4)
    = Some ([mkT 8 9 2%float], [0; 0]%float).
Proof.
  intros ic. split; [left; cbn; lia|].
  apply (X5_empty_grid [mkCircle 0 0 1 5] ic (mkBC 1 2 3 4) [mkT 8 9 2%float]
           [7; 7]%float).
  left. cbn. lia.
Defined.

(** X6. The coefficient list is append-only and is never read: a pass that
    starts from a list [coeffs] gives that list followed by what a pass from
    the empty list gives, with the same right-hand side, and fails exactly
    when that pass fails. *)
Theorem X6_append_only circles ic bc_grid coeffs (b : list float) :
  buildProblem coeffs b circles ic bc_grid
  = (λ r, (coeffs ++ r.1, r.2)) <$> buildProblem [] b circles ic bc_grid.
Proof. rewrite !buildProblem_cases. by case_decide. Qed.

(** X7. The pass keeps the size of [b], and the entries of [b] beyond the
    [nx*ny] slots of the grid are left at the zero that [setZero] wrote. *)
Theorem X7_tail_zero circles ic bc_grid coeffs (b0 : list float) :
  (Z.to_nat (x_grid_size ic * y_grid_size ic) ≤ length b0)%nat →
  ∃ coeffs' b,
    buildProblem coeffs b0 circles ic bc_grid = Some (coeffs', b)
    ∧ length b = length b0
    ∧ ∀ m, (Z.to_nat (x_grid_size ic * y_grid_size ic) ≤ m < length b0)%nat →
           b !! m = Some 0%float.
Proof.
  intros Hb. rewrite buildProblem_cases, decide_True by auto.
  eexists _, _. split; [done|]. split; [apply length_rhs_vec|].
  intros m Hm. unfold rhs_vec.
  rewrite (foldl_alter_miss (λ p, Z.to_nat (flat_id ic p.1 p.2))
    (λ p, point_update circles ic bc_grid p.1 p.2)).
  - apply lookup_replicate_2. lia.
  - intros ([i j] & -> & [Hi Hj]%elem_of_points)%list_elem_of_fmap. cbn in Hm.
    pose proof (flat_id_range ic i j Hi Hj). lia.
Qed.

Lemma X7_tail_zero_witness :
  let ic := mkIC 1 2 0 1 0 1 in
  let b0 := [7; 7; 7; 7]%float in
  (Z.to_nat (x_grid_size ic * y_grid_size ic) ≤ length b0)%nat
  ∧ ∃ coeffs' b,
      buildProblem [] b0 [] ic (mkBC 1 2 3 4) = Some (coeffs', b)
      ∧ length b = length b0
      ∧ ∀ m, (Z.to_nat (x_grid_size ic * y_grid_size ic) ≤ m < length b0)%nat →
             b !! m = Some 0%float.
Proof.
  intros ic b0. split; [cbn; lia|].
  apply (X7_tail_zero [] ic (mkBC 1 2 3 4) [] b0). cbn. lia.
Defined.

(** X8. [buildProblem] does not clear the coefficient list: a second pass on
    the buffers that a first pass filled appends every triplet once more and
    recomputes the same right-hand side. *)
Theorem X8_second_pass circles ic bc_grid (b0 : list float) coeffs b :
  buildProblem [] b0 circles ic bc_grid = Some (coeffs, b) →
  buildProblem coeffs b circles ic bc_grid = Some (coeffs ++ coeffs, b).
Proof.
  rewrite !buildProblem_cases. case_decide as Hd; [|done].
  cbn [app]. intros [= <- <-]. rewrite length_rhs_vec.
  by rewrite decide_True.
Qed.

Lemma X8_second_pass_witness :
  let ic := mkIC 1 1 0 1 0 1 in
  buildProblem [] [7%float] [] ic (mkBC 1 2 3 4) = Some ([mkT 0 0 4%float], [10%float])
  ∧ buildProblem [mkT 0 0 4%float] [10%float] [] ic (mkBC 1 2 3 4)
    = Some ([mkT 0 0 4; mkT 0 0 4]%float, [10%float]).
Proof.
  intros ic. split; [reflexivity|].
  apply (X8_second_pass [] ic (mkBC 1 2 3 4) [7%float]). reflexivity.
Defined.

(** ** The content of the matrix and of the right-hand side *)

Lemma classify_check_true circles ic i j :
  is_Some (classify ic circles i j) ↔ (circularConditionsCheck i j circles ic).1 = true.
Proof.
  rewrite circularConditionsCheck_classify.
  destruct (classify ic circles i j) as [[]|]; cbn; split; try done; eauto.
Qed.

(** X9. The exact content of the coefficient list.  A triplet [(r,c,v)] is
    emitted if and only if [r] is the index of a grid point and it is the
    unit diagonal of that point when it is pinned, the diagonal [4] when it
    is not, or a [-1] that couples it, when it is not pinned, to one of its
    four stencil neighbours that lies in the grid and is not pinned either.
    In particular no triplet couples the end of a grid row to the start of
    the next one. *)
Theorem X9_sparsity_pattern circles ic bc_grid (b0 : list float) :
  (Z.to_nat (x_grid_size ic * y_grid_size ic) ≤ length b0)%nat →
  ∃ coeffs b,
    buildProblem [] b0 circles ic bc_grid = Some (coeffs, b)
    ∧ ∀ r c v,
        mkT r c v ∈ coeffs ↔
        ∃ i j, 0 ≤ i < x_grid_size ic ∧ 0 ≤ j < y_grid_size ic
          ∧ r = flat_id ic i j
          ∧ ((c = r ∧ v = 1%float
              ∧ (circularConditionsCheck i j circles ic).1 = true)
             ∨ (c = r ∧ v = 4%float
                ∧ (circularConditionsCheck i j circles ic).1 = false)
             ∨ (v = (-1)%float
                ∧ (circularConditionsCheck i j circles ic).1 = false
                ∧ ∃ ni nj, adjacent i j ni nj
                    ∧ 0 ≤ ni < x_grid_size ic ∧ 0 ≤ nj < y_grid_size ic
                    ∧ (circularConditionsCheck ni nj circles ic).1 = false
                    ∧ c = flat_id ic ni nj)).
Proof.
  intros Hb. rewrite buildProblem_cases, decide_True by auto.
  eexists _, _. split; [done|]. intros r c v. cbn [app].
  rewrite elem_of_all_coeffs. split.
  - intros (i & j & Hi & Hj & Ht). exists i, j. split_and!; [lia..| |].
    + pose proof (point_coeffs_row circles ic bc_grid i j) as R.
      rewrite Forall_forall in R. by apply R in Ht.
    + apply elem_of_point_coeffs in Ht; [|done..].
      destruct Ht as [[Hc E]|[[Hc E]|(Hc & ni & nj & Hadj & Hni & Hnj & Hnc & E)]];
        injection E as -> -> ->.
      * left. split_and!; [done..|]. by apply classify_check_true.
      * right; left. split_and!; [done..|]. by apply classify_check_false.
      * right; right. split; [done|]. split; [by apply classify_check_false|].
        exists ni, nj. split_and!; [done|lia..| |done]. by apply classify_check_false.
  - intros (i & j & Hi & Hj & -> & Hcase). exists i, j. split_and!; [lia..|].
    apply elem_of_point_coeffs; [done..|].
    destruct Hcase as [(-> & -> & Hc)|[(-> & -> & Hc)|(-> & Hc & ni & nj & Hadj & Hni & Hnj & Hnc & ->)]].
    + left. split; [|done]. by apply classify_check_true.
    + right; left. split; [|done]. by apply classify_check_false.
    + right; right. split; [by apply classify_check_false|].
      exists ni, nj. split_and!; [done|lia..| |done]. by apply classify_check_false.
Qed.

Lemma X9_sparsity_pattern_witness :
  let ic := mkIC 2 2 0 1 0 1 in
  let b0 := [7; 7; 7; 7]%float in
  let circles := [mkCircle 0 0 0.25 5] in
  (Z.to_nat (x_grid_size ic * y_grid_size ic) ≤ length b0)%nat
  ∧ ∃ coeffs b,
      buildProblem [] b0 circles ic (mkBC 1 2 3 4) = Some (coeffs, b)
      ∧ ∀ r c v,
          mkT r c v ∈ coeffs ↔
          ∃ i j, 0 ≤ i < x_grid_size ic ∧ 0 ≤ j < y_grid_size ic
            ∧ r = flat_id ic i j
            ∧ ((c = r ∧ v = 1%float
                ∧ (circularConditionsCheck i j circles ic).1 = true)
               ∨ (c = r ∧ v = 4%float
                  ∧ (circularConditionsCheck i j circles ic).1 = false)
               ∨ (v = (-1)%float
                  ∧ (circularConditionsCheck i j circles ic).1 = false
                  ∧ ∃ ni nj, adjacent i j ni nj
                      ∧ 0 ≤ ni < x_grid_size ic ∧ 0 ≤ nj < y_grid_size ic
                      ∧ (circularConditionsCheck ni nj circles ic).1 = false
                      ∧ c = flat_id ic ni nj)).
Proof.
  intros ic b0 circles. split; [cbn; lia|].
  apply (X9_sparsity_pattern circles ic (mkBC 1 2 3 4) b0). cbn. lia.
Defined.

(** X10. A pinned grid point is decoupled from the others: its column holds
    nothing but its own unit diagonal, as its row does, so no equation of
    another point refers to it. *)
Theorem X10_pinned_column circles ic bc_grid (b0 : list float) i j :
  (Z.to_nat (x_grid_size ic * y_grid_size ic) ≤ length b0)%nat →
  0 ≤ i < x_grid_size ic → 0 ≤ j < y_grid_size ic →
  (circularConditionsCheck i j circles ic).1 = true →
  ∃ coeffs b,
    buildProblem [] b0 circles ic bc_grid = Some (coeffs, b)
    ∧ filter (λ t, col t = flat_id ic i j) coeffs
      = [mkT (flat_id ic i j) (flat_id ic i j) 1%float].
Proof.
  intros Hb Hi Hj Hpin%classify_check_true.
  rewrite buildProblem_cases, decide_True by auto.
  eexists _, _. split; [done|]. cbn [app]. unfold all_coeffs.
  assert (point_coeffs circles ic bc_grid i j
          = [mkT (flat_id ic i j) (flat_id ic i j) 1%float]) as Hpc.
  { unfold point_coeffs. by destruct Hpin as [? ->]. }
  rewrite <- Hpc.
  apply (filter_bind_unique _ (λ p, point_coeffs circles ic bc_grid p.1 p.2) _ (i, j)).
  - apply NoDup_points.
  - by apply elem_of_points.
  - cbn. rewrite Hpc. by repeat constructor.
  - intros [i' j'] [Hi' Hj']%elem_of_points Hne. cbn.
    apply Forall_forall. intros t Ht E.
    apply elem_of_point_coeffs in Ht; [|done..].
    destruct Ht as [[_ ->]|[[_ ->]|(_ & ni & nj & _ & Hni & Hnj & Hnc & ->)]];
      cbn in E.
    + destruct (flat_id_inj ic i' j' i j) as [-> ->]; done.
    + destruct (flat_id_inj ic i' j' i j) as [-> ->]; done.
    + destruct (flat_id_inj ic ni nj i j) as [-> ->]; [done..|].
      rewrite Hnc in Hpin. by destruct Hpin.
Qed.

Lemma X10_pinned_column_witness :
  let ic := mkIC 2 2 0 1 0 1 in
  let b0 := [7; 7; 7; 7]%float in
  let circles := [mkCircle 0 0 0.25 5] in
  (Z.to_nat (x_grid_size ic * y_grid_size ic) ≤ length b0)%nat
  ∧ 0 ≤ 0 < x_grid_size ic ∧ 0 ≤ 0 < y_grid_size ic
  ∧ (circularConditionsCheck 0 0 circles ic).1 = true
  ∧ ∃ coeffs b,
      buildProblem [] b0 circles ic (mkBC 1 2 3 4) = Some (coeffs, b)
      ∧ filter (λ t, col t = flat_id ic 0 0) coeffs
        = [mkT (flat_id ic 0 0) (flat_id ic 0 0) 1%float].
Proof.
  intros ic b0 circles.
  split; [cbn; lia|]. split; [cbn; lia|]. split; [cbn; lia|].
  split; [reflexivity|].
  apply (X10_pinned_column circles ic (mkBC 1 2 3 4) b0 0 0);
    [cbn; lia|cbn; lia|cbn; lia|reflexivity].
Defined.

(** The row of a point that is not pinned: the neighbours that are unknowns,
    then the diagonal. *)
Lemma point_coeffs_unpinned circles ic bc_grid i j :
  0 ≤ i < x_grid_size ic → 0 ≤ j < y_grid_size ic →
  classify ic circles i j = None →
  ∃ offs,
    point_coeffs circles ic bc_grid i j
    = offs ++ [mkT (flat_id ic i j) (flat_id ic i j) 4%float]
    ∧ (length offs ≤ 4)%nat
    ∧ Forall (λ t, col t ≠ flat_id ic i j) offs.
Proof.
  intros Hi Hj Hc.
  exists (emitted circles ic bc_grid (flat_id ic i j) (i - 1) j (-1)%float
          ++ emitted circles ic bc_grid (flat_id ic i j) (i + 1) j (-1)%float
          ++ emitted circles ic bc_grid (flat_id ic i j) i (j - 1) (-1)%float
          ++ emitted circles ic bc_grid (flat_id ic i j) i (j + 1) (-1)%float).
  split_and!.
  - unfold point_coeffs. rewrite Hc. rewrite <- !(assoc_L (++)). do 4 f_equal.
    unfold emitted.
    assert (folded circles ic bc_grid i j = None) as ->; [|done].
    apply folded_None. split_and!; [lia..|done].
  - rewrite !length_app.
    pose proof (length_emitted circles ic bc_grid (flat_id ic i j) (i - 1) j (-1)%float).
    pose proof (length_emitted circles ic bc_grid (flat_id ic i j) (i + 1) j (-1)%float).
    pose proof (length_emitted circles ic bc_grid (flat_id ic i j) i (j - 1) (-1)%float).
    pose proof (length_emitted circles ic bc_grid (flat_id ic i j) i (j + 1) (-1)%float).
    lia.
  - rewrite !Forall_app. split_and!; apply Forall_forall;
      intros t [-> _]%elem_of_emitted; cbn; unfold flat_id; lia.
Qed.

(** X11. The right-hand side of a grid point that is not pinned is the sum,
    accumulated from zero in the order west, east, north, south, of the
    voltages of its neighbours that are known: a side of the box for a
    neighbour outside the grid, the voltage of the first inclusion that
    contains it for a pinned neighbour.  Unknown neighbours contribute
    nothing. *)
Theorem X11_rhs_unpinned circles ic bc_grid (b0 : list float) i j :
  (Z.to_nat (x_grid_size ic * y_grid_size ic) ≤ length b0)%nat →
  0 ≤ i < x_grid_size ic → 0 ≤ j < y_grid_size ic →
  (circularConditionsCheck i j circles ic).1 = false →
  ∃ coeffs b,
    buildProblem [] b0 circles ic bc_grid = Some (coeffs, b)
    ∧ b !! Z.to_nat (flat_id ic i j)
      = Some (foldl (λ acc v, (acc + v)%float) 0%float
                    (known_neighbours circles ic bc_grid i j)).
Proof.
  intros Hb Hi Hj Hc%classify_check_false.
  rewrite buildProblem_cases, decide_True by auto.
  eexists _, _. split; [done|].
  rewrite rhs_vec_lookup by done. f_equal.
  unfold point_update, fold_step, known_neighbours. rewrite Hc.
  assert (folded circles ic bc_grid i j = None) as ->
    by (apply folded_None; split_and!; [lia..|done]).
  cbn [omap list_omap fst snd].
  destruct (folded circles ic bc_grid (i - 1) j);
  destruct (folded circles ic bc_grid (i + 1) j);
  destruct (folded circles ic bc_grid i (j - 1));
  destruct (folded circles ic bc_grid i (j + 1));
  cbn; by rewrite ?mul_neg_one, ?sub_opp_r.
Qed.

Lemma X11_rhs_unpinned_witness :
  let ic := mkIC 2 2 0 1 0 1 in
  let b0 := [7; 7; 7; 7]%float in
  let circles := [mkCircle 0 0 0.25 5] in
  (Z.to_nat (x_grid_size ic * y_grid_size ic) ≤ length b0)%nat
  ∧ 0 ≤ 1 < x_grid_size ic ∧ 0 ≤ 0 < y_grid_size ic
  ∧ (circularConditionsCheck 1 0 circles ic).1 = false
  ∧ known_neighbours circles ic (mkBC 1 2 3 4) 1 0 = [5; 4; 1]%float
  ∧ ∃ coeffs b,
      buildProblem [] b0 circles ic (mkBC 1 2 3 4) = Some (coeffs, b)
      ∧ b !! Z.to_nat (flat_id ic 1 0)
        = Some (foldl (λ acc v, (acc + v)%float) 0%float
                      (known_neighbours circles ic (mkBC 1 2 3 4) 1 0)).
Proof.
  intros ic b0 circles.
  split; [cbn; lia|]. split; [cbn; lia|]. split; [cbn; lia|].
  split; [reflexivity|]. split; [reflexivity|].
  apply (X11_rhs_unpinned circles ic (mkBC 1 2 3 4) b0 1 0);
    [cbn; lia|cbn; lia|cbn; lia|reflexivity].
Defined.

(** X12. A grid point that is not pinned and whose four neighbours lie in the
    grid and are not pinned either gets the full 5-point row, in the order
    west, east, north, south, self, and a zero right-hand side. *)
Theorem X12_interior_row circles ic bc_grid (b0 : list float) i j :
  (Z.to_nat (x_grid_size ic * y_grid_size ic) ≤ length b0)%nat →
  1 ≤ i < x_grid_size ic - 1 → 1 ≤ j < y_grid_size ic - 1 →
  (circularConditionsCheck i j circles ic).1 = false →
  (circularConditionsCheck (i - 1) j circles ic).1 = false →
  (circularConditionsCheck (i + 1) j circles ic).1 = false →
  (circularConditionsCheck i (j - 1) circles ic).1 = false →
  (circularConditionsCheck i (j + 1) circles ic).1 = false →
  let id := flat_id ic i j in
  ∃ coeffs b,
    buildProblem [] b0 circles ic bc_grid = Some (coeffs, b)
    ∧ row_entries id coeffs
      = [mkT id (id - 1) (-1); mkT id (id + 1) (-1);
         mkT id (id - x_grid_size ic) (-1); mkT id (id + x_grid_size ic) (-1);
         mkT id id 4]%float
    ∧ b !! Z.to_nat id = Some 0%float.
Proof.
  intros Hb Hi Hj Hc%classify_check_false Hw%classify_check_false
    He%classify_check_false Hn%classify_check_false Hs%classify_check_false id.
  rewrite buildProblem_cases, decide_True by auto.
  eexists _, _. split; [done|]. cbn [app].
  assert (folded circles ic bc_grid i j = None) as Fc
    by (apply folded_None; split_and!; [lia..|done]).
  assert (folded circles ic bc_grid (i - 1) j = None) as Fw
    by (apply folded_None; split_and!; [lia..|done]).
  assert (folded circles ic bc_grid (i + 1) j = None) as Fe
    by (apply folded_None; split_and!; [lia..|done]).
  assert (folded circles ic bc_grid i (j - 1) = None) as Fn
    by (apply folded_None; split_and!; [lia..|done]).
  assert (folded circles ic bc_grid i (j + 1) = None) as Fs
    by (apply folded_None; split_and!; [lia..|done]).
  split.
  - unfold id. rewrite row_entries_all_coeffs by lia.
    unfold point_coeffs, emitted. rewrite Hc, Fc, Fw, Fe, Fn, Fs. cbn.
    replace (flat_id ic (i - 1) j) with (flat_id ic i j - 1) by (unfold flat_id; lia).
    replace (flat_id ic (i + 1) j) with (flat_id ic i j + 1) by (unfold flat_id; lia).
    replace (flat_id ic i (j - 1)) with (flat_id ic i j - x_grid_size ic)
      by (unfold flat_id; lia).
    replace (flat_id ic i (j + 1)) with (flat_id ic i j + x_grid_size ic)
      by (unfold flat_id; lia).
    done.
  - unfold id. rewrite rhs_vec_lookup by (done || lia).
    unfold point_update, fold_step. by rewrite Hc, Fc, Fw, Fe, Fn, Fs.
Qed.

Lemma X12_interior_row_witness :
  let ic := mkIC 3 3 0 3 0 3 in
  let b0 := [7; 7; 7; 7; 7; 7; 7; 7; 7]%float in
  let circles := [mkCircle 0 0 0.5 5] in
  let id := flat_id ic 1 1 in
  (Z.to_nat (x_grid_size ic * y_grid_size ic) ≤ length b0)%nat
  ∧ 1 ≤ 1 < x_grid_size ic - 1 ∧ 1 ≤ 1 < y_grid_size ic - 1
  ∧ (circularConditionsCheck 1 1 circles ic).1 = false
  ∧ (circularConditionsCheck (1 - 1) 1 circles ic).1 = false
  ∧ (circularConditionsCheck (1 + 1) 1 circles ic).1 = false
  ∧ (circularConditionsCheck 1 (1 - 1) circles ic).1 = false
  ∧ (circularConditionsCheck 1 (1 + 1) circles ic).1 = false
  ∧ ∃ coeffs b,
      buildProblem [] b0 circles ic (mkBC 1 2 3 4) = Some (coeffs, b)
      ∧ row_entries id coeffs
        = [mkT id (id - 1) (-1); mkT id (id + 1) (-1);
           mkT id (id - x_grid_size ic) (-1); mkT id (id + x_grid_size ic) (-1);
           mkT id id 4]%float
      ∧ b !! Z.to_nat id = Some 0%float.
Proof.
  intros ic b0 circles id.
  split; [cbn; lia|]. split; [cbn; lia|]. split; [cbn; lia|].
  do 5 (split; [reflexivity|]).
  apply (X12_interior_row circles ic (mkBC 1 2 3 4) b0 1 1);
    [cbn; lia|cbn; lia|cbn; lia|reflexivity..].
Defined.

(** X13. The matrix has a full diagonal: for every index [id] of the system,
    the row [id] is not empty and holds exactly one diagonal entry, of value
    [1] (pinned point) or [4]. *)
Theorem X13_full_diagonal circles ic bc_grid (b0 : list float) id :
  (Z.to_nat (x_grid_size ic * y_grid_size ic) ≤ length b0)%nat →
  0 ≤ x_grid_size ic →
  0 ≤ id < x_grid_size ic * y_grid_size ic →
  ∃ coeffs b v,
    buildProblem [] b0 circles ic bc_grid = Some (coeffs, b)
    ∧ filter (λ t, col t = id) (row_entries id coeffs) = [mkT id id v]
    ∧ (v = 1%float ∨ v = 4%float).
Proof.
  intros Hb Hnx Hid.
  assert (0 < x_grid_size ic) as Hpos.
  { destruct (decide (x_grid_size ic = 0)) as [E|]; [rewrite E in Hid|]; lia. }
  pose proof (Z.mod_pos_bound id (x_grid_size ic) Hpos) as Hmod.
  pose proof (Z.div_mod id (x_grid_size ic)) as Hdm.
  assert (0 ≤ id `div` x_grid_size ic < y_grid_size ic) as Hdiv.
  { split; [apply Z.div_pos; lia|apply Z.div_lt_upper_bound; lia]. }
  assert (id = flat_id ic (id `mod` x_grid_size ic) (id `div` x_grid_size ic)) as Hflat
    by (unfold flat_id; lia).
  revert Hmod Hdiv Hflat.
  generalize (id `mod` x_grid_size ic) (id `div` x_grid_size ic).
  intros i j Hi Hj ->. clear Hdm Hid.
  rewrite buildProblem_cases, decide_True by auto.
  destruct (classify ic circles i j) as [p|] eqn:Hc.
  - eexists _, _, 1%float. split; [done|]. cbn [app].
    rewrite row_entries_all_coeffs by done.
    unfold point_coeffs. rewrite Hc. split; [|auto].
    rewrite filter_cons, filter_nil. cbn [col]. by rewrite decide_True.
  - eexists _, _, 4%float. split; [done|]. cbn [app].
    rewrite row_entries_all_coeffs by done.
    destruct (point_coeffs_unpinned circles ic bc_grid i j Hi Hj Hc)
      as (offs & -> & _ & Hoffs).
    split; [|auto]. rewrite filter_app.
    rewrite (filter_Forall_none (λ t, col t = flat_id ic i j)) by done.
    rewrite filter_cons, filter_nil. cbn [col]. by rewrite decide_True.
Qed.

Lemma X13_full_diagonal_witness :
  let ic := mkIC 2 2 0 1 0 1 in
  let b0 := [7; 7; 7; 7]%float in
  (Z.to_nat (x_grid_size ic * y_grid_size ic) ≤ length b0)%nat
  ∧ 0 ≤ x_grid_size ic ∧ 0 ≤ 3 < x_grid_size ic * y_grid_size ic
  ∧ ∃ coeffs b v,
      buildProblem [] b0 [mkCircle 0 0 0.25 5] ic (mkBC 1 2 3 4) = Some (coeffs, b)
      ∧ filter (λ t, col t = 3) (row_entries 3 coeffs) = [mkT 3 3 v]
      ∧ (v = 1%float ∨ v = 4%float).
Proof.
  intros ic b0. split; [cbn; lia|]. split; [cbn; lia|]. split; [cbn; lia|].
  apply (X13_full_diagonal [mkCircle 0 0 0.25 5] ic (mkBC 1 2 3 4) b0 3); cbn; lia.
Defined.

(** ** The order and the number of the triplets *)

Lemma StronglySorted_bind {A B : Type} (Q : A → A → Prop) (R : B → B → Prop)
    (f : A → list B) (l : list A) :
  StronglySorted Q l →
  (∀ x, x ∈ l → StronglySorted R (f x)) →
  (∀ x y b c, Q x y → x ∈ l → y ∈ l → b ∈ f x → c ∈ f y → R b c) →
  StronglySorted R (l ≫= f).
Proof.
  induction 1 as [|x l Hl IH Hx]; intros Hf Hcross; [constructor|].
  rewrite bind_cons. apply StronglySorted_app. split_and!.
  - intros b c Hb (y & Hc & Hy)%list_elem_of_bind.
    rewrite Forall_forall in Hx.
    apply (Hcross x y); [by apply Hx|by left|by right|done..].
  - apply Hf. by left.
  - apply IH.
    + intros y Hy. apply Hf. by right.
    + intros y z b c ? Hy Hz. apply Hcross; [done|by right..].
Qed.

Lemma StronglySorted_seqZ m n : StronglySorted Z.lt (seqZ m n).
Proof.
  remember (Z.to_nat n) as k eqn:Hk. revert m n Hk.
  induction k as [|k IH]; intros m n Hk.
  - rewrite seqZ_nil by lia. constructor.
  - rewrite seqZ_cons by lia. constructor.
    + apply IH. lia.
    + apply Forall_forall. intros x Hx%elem_of_seqZ. lia.
Qed.

Lemma points_sorted ic :
  StronglySorted (λ p q, flat_id ic p.1 p.2 ≤ flat_id ic q.1 q.2) (points ic).
Proof.
  unfold points. apply (StronglySorted_bind Z.lt).
  - apply StronglySorted_seqZ.
  - intros j _. apply StronglySorted_fmap with (R1 := Z.lt);
      [|apply StronglySorted_seqZ].
    intros i i' Hlt. cbn. unfold flat_id. lia.
  - intros j j' p q Hlt _ _ (i & -> & Hi%elem_of_seqZ)%list_elem_of_fmap
      (i' & -> & Hi'%elem_of_seqZ)%list_elem_of_fmap.
    cbn. unfold flat_id. nia.
Qed.

Lemma all_coeffs_sorted circles ic bc_grid :
  StronglySorted Z.le (row <$> all_coeffs circles ic bc_grid).
Proof.
  unfold all_coeffs. rewrite fmap_bind_list.
  apply (StronglySorted_bind (λ p q, flat_id ic p.1 p.2 ≤ flat_id ic q.1 q.2)).
  - apply points_sorted.
  - intros [i j] _. cbn.
    pose proof (point_coeffs_row circles ic bc_grid i j) as R.
    induction R as [|t l Ht R IH]; cbn; constructor; [done|].
    apply Forall_fmap, Forall_forall. intros t' Ht'.
    rewrite Forall_forall in R. cbn. rewrite Ht, (R _ Ht'). done.
  - intros [i j] [i' j'] r r' Hle _ _
      (t & -> & Ht)%list_elem_of_fmap (t' & -> & Ht')%list_elem_of_fmap.
    pose proof (point_coeffs_row circles ic bc_grid i j) as R.
    pose proof (point_coeffs_row circles ic bc_grid i' j') as R'.
    rewrite Forall_forall in R, R'. cbn in *.
    by rewrite (R _ Ht), (R' _ Ht').
Qed.

(** X14. The triplets are emitted row by row: along the coefficient list
    the row index never decreases, so the entries of one row of the matrix
    are contiguous. *)
Theorem X14_rows_in_order circles ic bc_grid (b0 : list float) :
  (Z.to_nat (x_grid_size ic * y_grid_size ic) ≤ length b0)%nat →
  ∃ coeffs b,
    buildProblem [] b0 circles ic bc_grid = Some (coeffs, b)
    ∧ StronglySorted Z.le (row <$> coeffs).
Proof.
  intros Hb. rewrite buildProblem_cases, decide_True by auto.
  eexists _, _. split; [done|]. apply all_coeffs_sorted.
Qed.

Lemma X14_rows_in_order_witness :
  let ic := mkIC 2 2 0 1 0 1 in
  let b0 := [7; 7; 7; 7]%float in
  (Z.to_nat (x_grid_size ic * y_grid_size ic) ≤ length b0)%nat
  ∧ ∃ coeffs b,
      buildProblem [] b0 [mkCircle 0 0 0.25 5] ic (mkBC 1 2 3 4) = Some (coeffs, b)
      ∧ StronglySorted Z.le (row <$> coeffs).
Proof.
  intros ic b0. split; [cbn; lia|].
  apply (X14_rows_in_order [mkCircle 0 0 0.25 5] ic (mkBC 1 2 3 4) b0). cbn. lia.
Defined.

Lemma length_bind_bounds {A B : Type} (f : A → list B) (l : list A) lo hi :
  Forall (λ x, lo ≤ length (f x) ≤ hi)%nat l →
  (lo * length l ≤ length (l ≫= f) ≤ hi * length l)%nat.
Proof.
  induction 1 as [|x l Hx _ IH]; [cbn; lia|].
  rewrite bind_cons, length_app. cbn [length]. lia.
Qed.

Lemma length_points ic :
  length (points ic) = (Z.to_nat (y_grid_size ic) * Z.to_nat (x_grid_size ic))%nat.
Proof.
  unfold points.
  assert (∀ l : list Z,
    length (l ≫= λ j, (λ i, (i, j)) <$> seqZ 0 (x_grid_size ic))
    = (length l * Z.to_nat (x_grid_size ic))%nat) as H.
  { induction l as [|j l IH]; [done|].
    rewrite bind_cons, length_app, IH, length_fmap, length_seqZ. cbn. lia. }
  by rewrite H, length_seqZ.
Qed.

(** X15. The pass emits at least one and at most five triplets per grid
    point: the coefficient list has between [nx*ny] and [5*nx*ny] entries. *)
Theorem X15_triplet_count circles ic bc_grid (b0 : list float) :
  (Z.to_nat (x_grid_size ic * y_grid_size ic) ≤ length b0)%nat →
  0 ≤ x_grid_size ic → 0 ≤ y_grid_size ic →
  ∃ coeffs b,
    buildProblem [] b0 circles ic bc_grid = Some (coeffs, b)
    ∧ x_grid_size ic * y_grid_size ic ≤ Z.of_nat (length coeffs)
      ≤ 5 * (x_grid_size ic * y_grid_size ic).
Proof.
  intros Hb Hnx Hny. rewrite buildProblem_cases, decide_True by auto.
  eexists _, _. split; [done|]. cbn [app]. unfold all_coeffs.
  pose proof (length_bind_bounds
    (λ p, point_coeffs circles ic bc_grid p.1 p.2) (points ic) 1 5) as Hlen.
  rewrite length_points in Hlen.
  assert (Forall (λ p, 1 ≤ length (point_coeffs circles ic bc_grid p.1 p.2) ≤ 5)%nat
            (points ic)) as Hall; [|specialize (Hlen Hall); nia].
  apply Forall_forall. intros [i j] [Hi Hj]%elem_of_points. cbn.
  destruct (classify ic circles i j) as [p|] eqn:Hc.
  - unfold point_coeffs. rewrite Hc. cbn. lia.
  - destruct (point_coeffs_unpinned circles ic bc_grid i j Hi Hj Hc)
      as (offs & -> & Hoffs & _).
    rewrite length_app. cbn. lia.
Qed.

Lemma X15_triplet_count_witness :
  let ic := mkIC 2 2 0 1 0 1 in
  let b0 := [7; 7; 7; 7]%float in
  (Z.to_nat (x_grid_size ic * y_grid_size ic) ≤ length b0)%nat
  ∧ 0 ≤ x_grid_size ic ∧ 0 ≤ y_grid_size ic
  ∧ ∃ coeffs b,
      buildProblem [] b0 [mkCircle 0 0 0.25 5] ic (mkBC 1 2 3 4) = Some (coeffs, b)
      ∧ x_grid_size ic * y_grid_size ic ≤ Z.of_nat (length coeffs)
        ≤ 5 * (x_grid_size ic * y_grid_size ic).
Proof.
  intros ic b0. split; [cbn; lia|]. split; [cbn; lia|]. split; [cbn; lia|].
  apply (X15_triplet_count [mkCircle 0 0 0.25 5] ic (mkBC 1 2 3 4) b0); cbn; lia.
Defined.

(** ** More on the classifier *)

Lemma circle_loop_shift ic i j rest k :
  circle_loop i j ic rest k =
    if (circle_loop i j ic rest 0).1
    then (true, k + (circle_loop i j ic rest 0).2)
    else (false, 0).
Proof.
  rewrite !circle_loop_find.
  destruct (list_find (inside ic i j) rest) as [[n c]|]; cbn; [|done].
  f_equal.
Qed.

Lemma circle_loop_app ic (cs cs' : list Circle) i j k :
  circle_loop i j ic (cs ++ cs') k =
    if (circle_loop i j ic cs k).1
    then circle_loop i j ic cs k
    else if (circle_loop i j ic cs' 0).1
         then (true, k + Z.of_nat (length cs) + (circle_loop i j ic cs' 0).2)
         else (false, 0).
Proof.
  revert k. induction cs as [|c cs IH]; intros k.
  - cbn [app circle_loop fst length]. rewrite (circle_loop_shift _ _ _ cs' k).
    destruct (circle_loop i j ic cs' 0).1; [|done]. f_equal. lia.
  - cbn [app circle_loop]. destruct (in_circle i j ic c); [done|].
    rewrite IH. destruct (circle_loop i j ic cs (k + 1)).1; [done|].
    destruct (circle_loop i j ic cs' 0).1; [|done].
    f_equal. cbn [length]. lia.
Qed.

(** X16. First match wins under concatenation: inclusions appended to the
    list never change the answer for a point that an earlier inclusion
    contains; for the other points the answer is that of the appended part,
    its index shifted by the number of inclusions before it. *)
Theorem X16_first_match_append ic (cs cs' : list Circle) i j :
  circularConditionsCheck i j (cs ++ cs') ic =
    if (circularConditionsCheck i j cs ic).1
    then circularConditionsCheck i j cs ic
    else if (circularConditionsCheck i j cs' ic).1
         then (true, Z.of_nat (length cs) + (circularConditionsCheck i j cs' ic).2)
         else (false, 0).
Proof.
  unfold circularConditionsCheck. rewrite circle_loop_app.
  destruct (circle_loop i j ic cs 0).1; [done|].
  destruct (circle_loop i j ic cs' 0).1; [|done]. f_equal.
Qed.

(** ** What the system depends on *)

Lemma foldl_ext_Forall {A B : Type} (f g : A → B → A) (l : list B) a :
  Forall (λ x, ∀ a, f a x = g a x) l → foldl f a l = foldl g a l.
Proof.
  intros H. revert a. induction H as [|x l Hx _ IH]; intros a; [done|].
  cbn. by rewrite Hx, IH.
Qed.

(** Two configurations of the same grid size whose points contribute the same
    triplets and the same updates give the same pass. *)
Lemma pass_ext circles ic bc_grid circles' ic' bc_grid' :
  x_grid_size ic = x_grid_size ic' → y_grid_size ic = y_grid_size ic' →
  (∀ i j, 0 ≤ i < x_grid_size ic → 0 ≤ j < y_grid_size ic →
     point_coeffs circles ic bc_grid i j = point_coeffs circles' ic' bc_grid' i j
     ∧ ∀ old, point_update circles ic bc_grid i j old
              = point_update circles' ic' bc_grid' i j old) →
  ∀ coeffs (b : list float),
    buildProblem coeffs b circles ic bc_grid
    = buildProblem coeffs b circles' ic' bc_grid'.
Proof.
  intros Hnx Hny Hpt coeffs b. rewrite !buildProblem_cases.
  assert (points ic = points ic') as Hpoints by (unfold points; by rewrite Hnx, Hny).
  assert (all_coeffs circles ic bc_grid = all_coeffs circles' ic' bc_grid') as ->.
  { unfold all_coeffs. rewrite <- Hpoints. apply Forall_bind_ext, Forall_forall.
    intros [i j] [Hi Hj]%elem_of_points. by apply Hpt. }
  assert (rhs_vec circles ic bc_grid (length b)
          = rhs_vec circles' ic' bc_grid' (length b)) as ->.
  { unfold rhs_vec. rewrite <- Hpoints. apply foldl_ext_Forall, Forall_forall.
    intros [i j] [Hi Hj]%elem_of_points a. cbn.
    replace (flat_id ic' i j) with (flat_id ic i j) by (unfold flat_id; by rewrite Hnx).
    apply list_alter_ext; [|done]. intros old _. by apply Hpt. }
  rewrite <- Hnx, <- Hny. done.
Qed.

Lemma SFmul_opp_r x y :
  SFmul prec emax x (SFopp y) = SFopp (SFmul prec emax x y).
Proof.
  destruct x as [sx|sx| |sx mx ex], y as [sy|sy| |sy my ey]; cbn;
    try done; try (by destruct sx, sy).
  rewrite binary_round_aux_opp. by destruct sx, sy.
Qed.

Lemma mul_opp_opp x : ((- x) * (- x))%float = (x * x)%float.
Proof.
  apply Prim2SF_inj. rewrite mul_spec, !opp_spec, mul_spec.
  unfold SF64mul. rewrite SFmul_opp_l, SFmul_opp_r.
  by destruct (SFmul prec emax (Prim2SF x) (Prim2SF x)) as [[]|[]| |[] ? ?].
Qed.

Lemma inside_flip_radius ic i j c : inside ic i j (flip_radius c) ↔ inside ic i j c.
Proof. unfold inside. cbn [flip_radius x_offset y_offset radius]. by rewrite mul_opp_opp. Qed.

Lemma classify_flip_radius ic circles i j :
  classify ic (flip_radius <$> circles) i j
  = prod_map id flip_radius <$> classify ic circles i j.
Proof.
  unfold classify. induction circles as [|c cs IH]; [done|]. csimpl.
  destruct (decide (inside ic i j c)) as [Hc|Hc].
  - rewrite decide_True by by apply inside_flip_radius. done.
  - rewrite decide_False by by rewrite inside_flip_radius.
    rewrite IH. by destruct (list_find (inside ic i j) cs) as [[]|].
Qed.

Lemma folded_flip_radius circles ic bc_grid i j :
  folded (flip_radius <$> circles) ic bc_grid i j = folded circles ic bc_grid i j.
Proof.
  unfold folded. rewrite classify_flip_radius.
  by destruct (classify ic circles i j) as [[]|].
Qed.

(** X17. Only the square of a radius is used: flipping the signs of the radii
    of the inclusions changes neither the classification of a point nor the
    outcome of the pass, so a negative radius is taken as its absolute
    value. *)
Theorem X17_radius_sign circles ic bc_grid coeffs (b : list float) i j :
  circularConditionsCheck i j (flip_radius <$> circles) ic
  = circularConditionsCheck i j circles ic
  ∧ buildProblem coeffs b (flip_radius <$> circles) ic bc_grid
    = buildProblem coeffs b circles ic bc_grid.
Proof.
  split.
  - rewrite !circularConditionsCheck_classify, classify_flip_radius.
    by destruct (classify ic circles i j) as [[]|].
  - apply pass_ext; [done..|]. intros i' j' _ _. split.
    + unfold point_coeffs, emitted.
      rewrite classify_flip_radius, !folded_flip_radius.
      by destruct (classify ic circles i' j') as [[]|].
    + intros old. unfold point_update, fold_step.
      rewrite classify_flip_radius, !folded_flip_radius.
      by destruct (classify ic circles i' j') as [[]|].
Qed.

Lemma classify_of_check ic ic' circles i j :
  circularConditionsCheck i j circles ic = circularConditionsCheck i j circles ic' →
  classify ic circles i j = classify ic' circles i j.
Proof.
  rewrite !circularConditionsCheck_classify.
  destruct (classify ic circles i j) as [[n c]|] eqn:E,
    (classify ic' circles i j) as [[n' c']|] eqn:E'; try done.
  intros [= Hn%Nat2Z.inj]. subst n'.
  apply list_find_Some in E as (E & _). apply list_find_Some in E' as (E' & _).
  congruence.
Qed.

(** X18. The extents of the domain, hence the spacings [dx] and [dy], reach
    the system only through the classification of the grid points: two
    configurations with the same grid size, box voltages and inclusions
    whose grid points are classified alike give the same coefficients and
    the same right-hand side.  The weights [4] and [-1] never depend on the
    spacing. *)
Theorem X18_extents_only_classify circles ic ic' bc_grid coeffs (b : list float) :
  x_grid_size ic = x_grid_size ic' → y_grid_size ic = y_grid_size ic' →
  (∀ i j, 0 ≤ i < x_grid_size ic → 0 ≤ j < y_grid_size ic →
     circularConditionsCheck i j circles ic = circularConditionsCheck i j circles ic') →
  buildProblem coeffs b circles ic bc_grid = buildProblem coeffs b circles ic' bc_grid.
Proof.
  intros Hnx Hny Hcheck. apply pass_ext; [done..|]. intros i j Hi Hj.
  assert (∀ ni nj, adjacent i j ni nj ∨ (ni = i ∧ nj = j) →
    folded circles ic bc_grid ni nj = folded circles ic' bc_grid ni nj) as Hf.
  { intros ni nj Hnb. unfold folded. rewrite <- Hnx, <- Hny.
    destruct (Z.eqb_spec ni (-1)); [done|].
    destruct (Z.eqb_spec ni (x_grid_size ic)); [done|].
    destruct (Z.eqb_spec nj (-1)); [done|].
    destruct (Z.eqb_spec nj (y_grid_size ic)); [done|].
    rewrite (classify_of_check ic ic'); [done|].
    apply Hcheck; unfold adjacent in Hnb; lia. }
  assert (classify ic circles i j = classify ic' circles i j) as Hc
    by (apply classify_of_check; by apply Hcheck).
  assert (∀ ni nj, flat_id ic ni nj = flat_id ic' ni nj) as Hflat
    by (intros; unfold flat_id; by rewrite Hnx).
  split.
  - unfold point_coeffs, emitted. rewrite Hc, !Hflat.
    rewrite !Hf by (unfold adjacent; lia). done.
  - intros old. unfold point_update, fold_step. rewrite Hc.
    rewrite !Hf by (unfold adjacent; lia). done.
Qed.

Lemma X18_extents_only_classify_witness :
  let ic := mkIC 2 2 0 2 0 2 in
  let ic' := mkIC 2 2 0 4 0 6 in
  let circles := [mkCircle 0 0 0.5 5] in
  x_grid_size ic = x_grid_size ic' ∧ y_grid_size ic = y_grid_size ic'
  ∧ (∀ i j, 0 ≤ i < x_grid_size ic → 0 ≤ j < y_grid_size ic →
       circularConditionsCheck i j circles ic = circularConditionsCheck i j circles ic')
  ∧ buildProblem [] [7; 7; 7; 7]%float circles ic (mkBC 1 2 3 4)
    = buildProblem [] [7; 7; 7; 7]%float circles ic' (mkBC 1 2 3 4).
Proof.
  intros ic ic' circles.
  assert (∀ i j, 0 ≤ i < x_grid_size ic → 0 ≤ j < y_grid_size ic →
    circularConditionsCheck i j circles ic = circularConditionsCheck i j circles ic')
    as Hsame.
  { intros i j Hi Hj. cbn in Hi, Hj.
    assert (i = 0 ∨ i = 1) as [-> | ->] by lia;
    assert (j = 0 ∨ j = 1) as [-> | ->] by lia; reflexivity. }
  split; [reflexivity|]. split; [reflexivity|]. split; [exact Hsame|].
  apply (X18_extents_only_classify circles ic ic' (mkBC 1 2 3 4) [] [7; 7; 7; 7]%float);
    [reflexivity|reflexivity|exact Hsame].
Defined.

(** ** Bounds of the reshaping loop *)

(** X19. On a grid with at least one point the reshaping loop stays inside
    the solution vector exactly when the vector has at least [nx*ny]
    entries. *)
Theorem X19_reshape_needs_room {A : Type} (x : list A) ic :
  1 ≤ x_grid_size ic → 1 ≤ y_grid_size ic →
  (is_Some (reshape x ic)
   ↔ (Z.to_nat (x_grid_size ic * y_grid_size ic) ≤ length x)%nat).
Proof.
  intros Hnx Hny. unfold reshape, reshape_row. rewrite mapM_is_Some. split.
  - intros Hrows. rewrite Forall_forall in Hrows.
    specialize (Hrows (y_grid_size ic - 1)). cbn in Hrows.
    rewrite mapM_is_Some, Forall_forall in Hrows.
    specialize (Hrows ltac:(apply elem_of_seqZ; lia) (x_grid_size ic - 1)).
    cbn in Hrows. specialize (Hrows ltac:(apply elem_of_seqZ; lia)).
    apply lookup_lt_is_Some_1 in Hrows. unfold flat_id in Hrows. nia.
  - intros Hlen. apply Forall_forall. intros j Hj%elem_of_seqZ. cbn.
    apply mapM_is_Some, Forall_forall. intros i Hi%elem_of_seqZ. cbn.
    apply lookup_lt_is_Some_2.
    pose proof (flat_id_range ic i j). lia.
Qed.

Lemma X19_reshape_needs_room_witness :
  let ic := mkIC 2 2 0 1 0 1 in
  1 ≤ x_grid_size ic ∧ 1 ≤ y_grid_size ic
  ∧ is_Some (reshape [1; 2; 3; 4; 5]%float ic).
Proof.
  intros ic. split; [cbn; lia|]. split; [cbn; lia|].
  apply (X19_reshape_needs_room [1; 2; 3; 4; 5]%float ic); cbn; lia.
Defined.

(** ** Every neighbour counts once *)

(** X20. Each of the four neighbours of a grid point that is not pinned is
    accounted for exactly once: it gives either an off-diagonal entry of the
    row or a known voltage in the right-hand side, so the two numbers add up
    to four. *)
Theorem X20_neighbours_once circles ic bc_grid (b0 : list float) i j :
  (Z.to_nat (x_grid_size ic * y_grid_size ic) ≤ length b0)%nat →
  0 ≤ i < x_grid_size ic → 0 ≤ j < y_grid_size ic →
  (circularConditionsCheck i j circles ic).1 = false →
  ∃ coeffs b,
    buildProblem [] b0 circles ic bc_grid = Some (coeffs, b)
    ∧ (length (filter (λ t, col t ≠ flat_id ic i j)
                      (row_entries (flat_id ic i j) coeffs))
       + length (known_neighbours circles ic bc_grid i j) = 4)%nat.
Proof.
  intros Hb Hi Hj Hc%classify_check_false.
  rewrite buildProblem_cases, decide_True by auto.
  eexists _, _. split; [done|]. cbn [app].
  rewrite row_entries_all_coeffs by done.
  assert (folded circles ic bc_grid i j = None) as Hself
    by (apply folded_None; split_and!; [lia..|done]).
  assert (∀ ni nj w, flat_id ic ni nj ≠ flat_id ic i j →
    filter (λ t, col t ≠ flat_id ic i j)
           (emitted circles ic bc_grid (flat_id ic i j) ni nj w)
    = emitted circles ic bc_grid (flat_id ic i j) ni nj w) as Hkeep.
  { intros ni nj w Hne. unfold emitted.
    destruct (folded circles ic bc_grid ni nj); [done|].
    rewrite filter_cons, filter_nil. cbn [col]. by rewrite decide_True. }
  unfold point_coeffs. rewrite Hc, !filter_app.
  rewrite !Hkeep by (unfold flat_id; lia).
  unfold emitted at 5. rewrite Hself, filter_cons, filter_nil. cbn [col].
  rewrite decide_False by (intros E; by apply E).
  rewrite !length_app. unfold emitted, known_neighbours.
  cbn [omap list_omap fst snd].
  destruct (folded circles ic bc_grid (i - 1) j);
  destruct (folded circles ic bc_grid (i + 1) j);
  destruct (folded circles ic bc_grid i (j - 1));
  destruct (folded circles ic bc_grid i (j + 1)); reflexivity.
Qed.

Lemma X20_neighbours_once_witness :
  let ic := mkIC 2 2 0 1 0 1 in
  let b0 := [7; 7; 7; 7]%float in
  let circles := [mkCircle 0 0 0.25 5] in
  (Z.to_nat (x_grid_size ic * y_grid_size ic) ≤ length b0)%nat
  ∧ 0 ≤ 1 < x_grid_size ic ∧ 0 ≤ 0 < y_grid_size ic
  ∧ (circularConditionsCheck 1 0 circles ic).1 = false
  ∧ ∃ coeffs b,
      buildProblem [] b0 circles ic (mkBC 1 2 3 4) = Some (coeffs, b)
      ∧ (length (filter (λ t, col t ≠ flat_id ic 1 0)
                        (row_entries (flat_id ic 1 0) coeffs))
         + length (known_neighbours circles ic (mkBC 1 2 3 4) 1 0) = 4)%nat.
Proof.
  intros ic b0 circles.
  split; [cbn; lia|]. split; [cbn; lia|]. split; [cbn; lia|].
  split; [reflexivity|].
  apply (X20_neighbours_once circles ic (mkBC 1 2 3 4) b0 1 0);
    [cbn; lia|cbn; lia|cbn; lia|reflexivity].
Defined.
